(** * generate_index.py: the music-library indexer

    A shallow embedding of [create_music_index] and of the script's entry
    point, followed by the properties of the index it builds.

    Conventions of the embedding.
    - A Python [str] is a Rocq [string] holding the UTF-8 encoding of the
      text.  The source only ever tests and splices with ASCII
      characters (['.'], ['/'], ['-'], the four extensions), and in UTF-8
      an ASCII byte never occurs inside the encoding of another code point,
      so prefix tests, suffix tests and concatenations on the bytes agree
      with the ones Python performs on code points.
    - [unicodedata.normalize('NFC', _)] and [str.lower] belong to the
      Python library, not to this program: they are parameters of the
      development ([nfc], [lower]).
    - The operating system is a record [OS]: directory listing (which may
      fail), the directory test, the outcome of opening and writing the
      output file, and the entropy source read by [uuid.uuid4].  Paths are
      joined as [posixpath] joins them.
    - Effects are threaded through a state-and-exception monad over
      [World]: the lines printed so far, the files written so far, and the
      number of random draws consumed.  A raised exception keeps the state
      reached so far, as in Python. *)

From Stdlib Require Import String Ascii List Bool Arith ZArith Lia.
From Stdlib Require Import DecimalString Permutation.
Import ListNotations.
Local Open Scope list_scope.
Local Open Scope string_scope.

Set Implicit Arguments.

(* ===================================================================== *)
(** ** Strings: the [str] methods the program uses *)
(* ===================================================================== *)

Module Str.

(** [s.startswith(p)] *)
Fixpoint startswith (s p : string) {struct p} : bool :=
  match p, s with
  | EmptyString, _ => true
  | String _ _, EmptyString => false
  | String c p', String d s' => Ascii.eqb d c && startswith s' p'
  end.

(** [s.endswith(suf)]: [suf] is [s] itself or a suffix of its tail. *)
Fixpoint endswith (s suf : string) : bool :=
  String.eqb s suf ||
  match s with
  | EmptyString => false
  | String _ s' => endswith s' suf
  end.

(** [s.endswith((e1, ..., en))]: the tuple form. *)
Definition endswith_any (s : string) (sufs : list string) : bool :=
  existsb (endswith s) sufs.

(** [s.rfind(c)] for a one-character needle; [None] stands for [-1]. *)
Fixpoint rfind (c : ascii) (s : string) : option nat :=
  match s with
  | EmptyString => None
  | String d s' =>
      match rfind c s' with
      | Some i => Some (S i)
      | None => if Ascii.eqb d c then Some 0 else None
      end
  end.

(** [s[:n]] *)
Definition take (n : nat) (s : string) : string := substring 0 n s.

(** [s[n:]] *)
Fixpoint drop (n : nat) (s : string) : string :=
  match n, s with
  | 0, _ => s
  | S _, EmptyString => EmptyString
  | S n', String _ s' => drop n' s'
  end.

(** The ASCII part of case mapping: ['A'..'Z'] to ['a'..'z']. *)
Definition ascii_lower_char (c : ascii) : ascii :=
  let n := nat_of_ascii c in
  if ((65 <=? n) && (n <=? 90))%nat then ascii_of_nat (n + 32) else c.

Fixpoint ascii_lower (s : string) : string :=
  match s with
  | EmptyString => EmptyString
  | String c s' => String (ascii_lower_char c) (ascii_lower s')
  end.

(** [str(n)] for a natural number. *)
Definition of_nat (n : nat) : string := NilZero.string_of_uint (Nat.to_uint n).

End Str.

(* ===================================================================== *)
(** ** [os.path] (POSIX flavour) *)
(* ===================================================================== *)

Module OsPath.

(** [posixpath.join(a, b)] *)
Definition join (a b : string) : string :=
  if Str.startswith b "/" then b
  else if String.eqb a "" || Str.endswith a "/" then a ++ b
  else a ++ "/" ++ b.

(** Is some character of [s] different from [c]?  ([_splitext]'s loop over
    the leading dots looks for the first such character.) *)
Fixpoint some_char_differs (c : ascii) (s : string) : bool :=
  match s with
  | EmptyString => false
  | String d s' => negb (Ascii.eqb d c) || some_char_differs c s'
  end.

(** [posixpath.splitext(p)]: split at the last dot of the last path
    component, unless that component consists of leading dots up to it. *)
Definition splitext (p : string) : string * string :=
  let filenameIndex :=
    match Str.rfind "/"%char p with Some i => S i | None => 0 end in
  match Str.rfind "."%char p with
  | Some dotIndex =>
      if (filenameIndex <=? dotIndex)%nat &&
         some_char_differs "."%char
           (substring filenameIndex (dotIndex - filenameIndex) p)
      then (Str.take dotIndex p, Str.drop dotIndex p)
      else (p, "")
  | None => (p, "")
  end.

End OsPath.

(* ===================================================================== *)
(** ** [uuid.uuid4] and [str(UUID)] *)
(* ===================================================================== *)

Module Uuid.

Local Open Scope Z_scope.

(** The six bits that [UUID.__init__(bytes=..., version=4)] overwrites:
    the variant field [0xc000 << 48] and the version field
    [0xf000 << 64]. *)
Definition variant_mask : Z := Z.shiftl 0xc000 48.
Definition version_mask : Z := Z.shiftl 0xf000 64.

(** [UUID(bytes=b, version=4).int], for [b] read as a big-endian integer. *)
Definition uuid_int (b : Z) : Z :=
  let i := b mod 2 ^ 128 in
  let i := Z.land i (Z.lnot variant_mask) in
  let i := Z.lor i (Z.shiftl 0x8000 48) in
  let i := Z.land i (Z.lnot version_mask) in
  Z.lor i (Z.shiftl 4 76).

Definition hexdigit (d : Z) : ascii :=
  if d <? 10 then ascii_of_nat (Z.to_nat (48 + d))
  else ascii_of_nat (Z.to_nat (87 + d)).

(** The [n] low hexadecimal digits of [x], most significant first. *)
Fixpoint hexdigits (n : nat) (x : Z) : list ascii :=
  match n with
  | O => []
  | S n' => (hexdigits n' (x / 16) ++ [hexdigit (x mod 16)])%list
  end.

(** ['%032x' % int] *)
Definition hex32 (x : Z) : list ascii := hexdigits 32 x.

(** [UUID.__str__]: [hex[:8]-hex[8:12]-hex[12:16]-hex[16:20]-hex[20:]]. *)
Definition uuid_str (x : Z) : string :=
  let hex := hex32 x in
  let slice (i j : nat) := firstn (j - i)%nat (skipn i hex) in
  string_of_list_ascii
    (slice 0 8 ++ "-"%char :: slice 8 12 ++ "-"%char :: slice 12 16
       ++ "-"%char :: slice 16 20 ++ "-"%char :: skipn 20 hex)%nat%list.

(** Used to read the digits back from the printed form. *)
Definition not_dash (c : ascii) : bool := negb (Ascii.eqb c "-").

End Uuid.

(* ===================================================================== *)
(** ** The operating system, the world and the effect monad *)
(* ===================================================================== *)

(** The exceptions the program can meet: [OSError] from a directory
    listing, and [KeyError] from a dictionary subscript. *)
Inductive exn : Type :=
| OSError (msg : string)
| KeyError (key : string).

Inductive result (A : Type) : Type :=
| Ok (a : A)
| Raise (e : exn).
Arguments Ok {A} a.
Arguments Raise {A} e.

(** What happens when the output file is opened for writing and the JSON
    text is dumped into it. *)
Inductive write_outcome : Type :=
| WriteOk                       (* opened, written, closed *)
| OpenFails (msg : string)      (* [open] raises [IOError] *)
| DumpFails (msg : string).     (* [json.dump] raises [IOError] midway *)

Record OS : Type := mkOS {
  listdir : string -> result (list string);   (* [os.listdir] *)
  isdir : string -> bool;                     (* [os.path.isdir] *)
  open_write : string -> write_outcome;       (* [open(p, 'w')] and the dump *)
  urandom16 : nat -> Z                        (* i-th [os.urandom(16)], big-endian *)
}.

(** A song entry and an album entry, with the keys of the source's
    dictionaries. *)
Record Song : Type := mkSong {
  id : string;
  title : string;
  song_artist : string;     (* key ["artist"] *)
  song_album : string;      (* key ["album"] *)
  relativePath : string
}.

Record Album : Type := mkAlbum {
  name : string;
  artist : string;
  songs : list Song
}.

(** The content of a file written by the program.  The JSON text is not
    modelled: a complete file holds the album list that [json.dump]
    serialises, a truncated one is what a failed dump leaves behind. *)
Inductive file_content : Type :=
| Json (album_list : list Album)
| Truncated.

Record World : Type := mkWorld {
  stdout : list string;                      (* one entry per [print] *)
  files : list (string * file_content);      (* files written, oldest first *)
  drawn : nat                                (* random draws consumed *)
}.

Definition M (A : Type) : Type := World -> result A * World.

Definition ret {A} (a : A) : M A := fun w => (Ok a, w).

Definition bind {A B} (m : M A) (k : A -> M B) : M B :=
  fun w =>
    match m w with
    | (Ok a, w') => k a w'
    | (Raise e, w') => (Raise e, w')
    end.

Definition raise {A} (e : exn) : M A := fun w => (Raise e, w).

Definition lift {A} (r : result A) : M A := fun w => (r, w).

Declare Scope monad_scope.
Delimit Scope monad_scope with monad.
Notation "x <- m ;; k" := (bind m (fun x => k))
  (at level 61, m at next level, right associativity) : monad_scope.
Notation "m ;;; k" := (bind m (fun _ => k))
  (at level 61, right associativity) : monad_scope.
Local Open Scope monad_scope.

(** [print(line)] *)
Definition print (line : string) : M unit :=
  fun w => (Ok tt, mkWorld (stdout w ++ [line])%list (files w) (drawn w)).

(** Record that [path] now holds [c]. *)
Definition write_file (path : string) (c : file_content) : M unit :=
  fun w => (Ok tt, mkWorld (stdout w) (files w ++ [(path, c)])%list (drawn w)).

(** [for x in xs: body], threading the loop's local state [s]. *)
Fixpoint for_in {A S} (xs : list A) (body : A -> S -> M S) (s : S) : M S :=
  match xs with
  | [] => ret s
  | x :: xs' => s' <- body x s ;; for_in xs' body s'
  end.

Unset Implicit Arguments.

(* ===================================================================== *)
(** ** The albums dictionary *)
(* ===================================================================== *)

(** [all_albums] is a Python [dict]: keys are unique and iteration follows
    insertion order, so it is an association list in insertion order. *)
Module Dict.

Definition t : Type := list (string * Album).

Fixpoint get (k : string) (d : t) : option Album :=
  match d with
  | [] => None
  | (k', v) :: d' => if String.eqb k k' then Some v else get k d'
  end.

(** [k in d] *)
Definition mem (k : string) (d : t) : bool :=
  match get k d with Some _ => true | None => false end.

(** [d[k] = v]: replace in place, or append a new key at the end. *)
Fixpoint set (k : string) (v : Album) (d : t) : t :=
  match d with
  | [] => [(k, v)]
  | (k', v') :: d' =>
      if String.eqb k k' then (k', v) :: d' else (k', v') :: set k v d'
  end.

(** [list(d.values())] *)
Definition values (d : t) : list Album := map snd d.

Definition keys (d : t) : list string := map fst d.

End Dict.

(** Two compound updates, used to say what the loops do to the dictionary
    in one step. *)
Module DictOps.
Import Dict.

(** Lines 33-38: create the album entry unless the key is there. *)
Definition ensure (k : string) (v : Album) (d : t) : t :=
  if mem k d then d else set k v d.

(** The effect of appending the songs [ss], one by one, to the entry of
    [k]. *)
Definition extend (k : string) (ss : list Song) (d : t) : t :=
  match get k d with
  | Some album =>
      set k (mkAlbum (name album) (artist album) (songs album ++ ss)%list) d
  | None => d
  end.

End DictOps.

(* ===================================================================== *)
(** ** The visible part of a file system *)
(* ===================================================================== *)

(** A name that starts with a dot. *)
Definition dot_name (s : string) : bool :=
  match s with
  | String c _ => Ascii.eqb c "."
  | EmptyString => false
  end.

(** A directory entry that is a directory and whose name does not start
    with a dot. *)
Definition shown_dir (os : OS) (parent entry : string) : bool :=
  negb (dot_name entry) && isdir os (OsPath.join parent entry).

(** The part of the files under [root] that lies in directories whose
    names do not start with a dot: the non-dot directories of the root,
    each with the outcome of listing it, restricted to its own non-dot
    directories, each with the outcome of listing it. *)
Definition album_view (os : OS) (artist_path album_name : string)
  : string * result (list string) :=
  (album_name, listdir os (OsPath.join artist_path album_name)).

Definition artist_view (os : OS) (root artist_name : string)
  : string * result (list (string * result (list string))) :=
  (artist_name,
   match listdir os (OsPath.join root artist_name) with
   | Ok album_names =>
       Ok (map (album_view os (OsPath.join root artist_name))
               (filter (shown_dir os (OsPath.join root artist_name)) album_names))
   | Raise e => Raise e
   end).

Definition visible_tree (os : OS) (root : string)
  : result (list (string * result (list (string * result (list string))))) :=
  match listdir os root with
  | Ok artist_names =>
      Ok (map (artist_view os root) (filter (shown_dir os root) artist_names))
  | Raise e => Raise e
  end.

(* ===================================================================== *)
(** ** Concrete libraries and file systems, for running the program *)
(* ===================================================================== *)

(** The world before the script starts. *)
Definition initial_world : World := mkWorld [] [] 0.

Module Fixtures.

(** A fragment of NFC: a lower-case vowel followed by U+0301 COMBINING
    ACUTE ACCENT (bytes CC 81) is composed into the precomposed letter
    (bytes C3 xx); everything else is kept.  On text that is in NFC apart
    from such pairs (all of ASCII, for one), this is what NFC does. *)
Definition acute (c : ascii) : option ascii :=
  if Ascii.eqb c "a" then Some (ascii_of_nat 161)
  else if Ascii.eqb c "e" then Some (ascii_of_nat 169)
  else if Ascii.eqb c "i" then Some (ascii_of_nat 173)
  else if Ascii.eqb c "o" then Some (ascii_of_nat 179)
  else if Ascii.eqb c "u" then Some (ascii_of_nat 186)
  else None.

Fixpoint nfc_acute (s : string) : string :=
  match s with
  | EmptyString => EmptyString
  | String c s1 =>
      match s1 with
      | String m1 (String m2 s3) =>
          match acute c with
          | Some c' =>
              if Ascii.eqb m1 (ascii_of_nat 204) && Ascii.eqb m2 (ascii_of_nat 129)
              then String (ascii_of_nat 195) (String c' (nfc_acute s3))
              else String c (nfc_acute s1)
          | None => String c (nfc_acute s1)
          end
      | _ => String c (nfc_acute s1)
      end
  end.

(** A file system given by the table of its directories: a path is a
    directory when the table has it, and listing it gives the table's
    entry (which may be a failure, e.g. for an unreadable directory). *)
Fixpoint lookup (p : string) (t : list (string * result (list string)))
  : option (result (list string)) :=
  match t with
  | [] => None
  | (q, r) :: t' => if String.eqb p q then Some r else lookup p t'
  end.

Definition os_of_table (t : list (string * result (list string)))
    (rand : nat -> Z) : OS :=
  mkOS (fun p => match lookup p t with
                 | Some r => r
                 | None => Raise (OSError ("[Errno 20] Not a directory: '" ++ p ++ "'"))
                 end)
       (fun p => match lookup p t with Some _ => true | None => false end)
       (fun _ => WriteOk)
       rand.

(** An entropy source whose draws are all different, and one whose draws
    are all different too, but only in the two variant bits (62 and 63)
    for the first four draws. *)
Definition counting (i : nat) : Z := Z.of_nat i.
Definition variant_bits_only (i : nat) : Z := Z.shiftl (Z.of_nat i) 62.

(** One album with two songs, read with the second entropy source. *)
Definition os_weak_entropy : OS :=
  os_of_table
    [ ("./Music", Ok ["Bjork"]);
      ("./Music/Bjork", Ok ["Post"]);
      ("./Music/Bjork/Post", Ok ["01.mp3"; "02.mp3"]) ]
    variant_bits_only.

(** No [./Music] directory at all. *)
Definition os_empty : OS := os_of_table [] counting.

(** An artist directory that cannot be listed, after one that can. *)
Definition os_unreadable : OS :=
  os_of_table
    [ ("./Music", Ok ["Bjork"; "Locked"]);
      ("./Music/Bjork", Ok ["Post"]);
      ("./Music/Bjork/Post", Ok ["01.mp3"]);
      ("./Music/Locked", Raise (OSError "[Errno 13] Permission denied: './Music/Locked'")) ]
    counting.

(** U+0301 COMBINING ACUTE ACCENT in UTF-8. *)
Definition combining_acute : string :=
  String (ascii_of_nat 204) (String (ascii_of_nat 129) "").

(** An artist directory [a-b] with album [c], and an artist directory [a]
    with album [b-c]: two different pairs with the same album key. *)
Definition os_collision : OS :=
  os_of_table
    [ ("./Music", Ok ["a-b"; "a"]);
      ("./Music/a-b", Ok ["c"]);
      ("./Music/a-b/c", Ok ["x.mp3"]);
      ("./Music/a", Ok ["b-c"]);
      ("./Music/a/b-c", Ok ["y.mp3"]) ]
    counting.

(** The same artist under two spellings: with a decomposed and with a
    precomposed e-acute.  The albums also hold a cover image and a track
    with an upper-case extension. *)
Definition cafe_decomposed : string := "Cafe" ++ combining_acute ++ " Tacvba".
Definition cafe_composed : string := "Café Tacvba".

Definition os_cafe : OS :=
  os_of_table
    [ ("./Music", Ok [cafe_decomposed; cafe_composed; "index.json"]);
      ("./Music/" ++ cafe_decomposed, Ok ["Re"]);
      ("./Music/" ++ cafe_decomposed ++ "/Re",
       Ok ["01 - El Borrego.mp3"; "cover.jpg"]);
      ("./Music/" ++ cafe_composed, Ok ["Re"]);
      ("./Music/" ++ cafe_composed ++ "/Re",
       Ok ["02 - El Fin.mp3"; "track.MP3"]) ]
    counting.

(** An artist directory spelled with a decomposed o-acute; its album holds
    a track, a directory named like a track, and a dot-named track. *)
Definition sigur_decomposed : string := "Sigur Ro" ++ combining_acute ++ "s".

Definition os_sigur : OS :=
  os_of_table
    [ ("./Music", Ok [sigur_decomposed]);
      ("./Music/" ++ sigur_decomposed, Ok ["( )"]);
      ("./Music/" ++ sigur_decomposed ++ "/( )",
       Ok ["08.flac"; "demo.mp3"; "._track.mp3"]);
      ("./Music/" ++ sigur_decomposed ++ "/( )/demo.mp3", Ok ["take1.wav"]) ]
    counting.

(** A library, and the same library with a dot-named artist directory, a
    dot-named album directory and an unreadable dot-named directory added,
    all holding tracks. *)
Definition os_plain : OS :=
  os_of_table
    [ ("./Music", Ok ["Bjork"]);
      ("./Music/Bjork", Ok ["Post"]);
      ("./Music/Bjork/Post", Ok ["01.mp3"]) ]
    counting.

Definition os_with_hidden : OS :=
  os_of_table
    [ ("./Music", Ok [".Trash"; "Bjork"; ".locked"]);
      ("./Music/.Trash", Ok ["Old"]);
      ("./Music/.Trash/Old", Ok ["gone.mp3"]);
      ("./Music/Bjork", Ok [".cache"; "Post"]);
      ("./Music/Bjork/.cache", Ok ["tmp.mp3"]);
      ("./Music/Bjork/Post", Ok ["01.mp3"]);
      ("./Music/.locked", Raise (OSError "[Errno 13] Permission denied")) ]
    counting.

(** An album directory that holds no audio file. *)
Definition os_empty_album : OS :=
  os_of_table
    [ ("./Music", Ok ["Bjork"]);
      ("./Music/Bjork", Ok ["Post"]);
      ("./Music/Bjork/Post", Ok ["cover.jpg"]) ]
    counting.

(** An album directory that holds a file named [.mp3]. *)
Definition os_dotfile : OS :=
  os_of_table
    [ ("./Music", Ok ["Bjork"]);
      ("./Music/Bjork", Ok ["Post"]);
      ("./Music/Bjork/Post", Ok [".mp3"]) ]
    counting.

(** The same file system, with another outcome for every write. *)
Definition with_write_outcome (os : OS) (outcome : write_outcome) : OS :=
  mkOS (listdir os) (isdir os) (fun _ => outcome) (urandom16 os).

Definition os_read_only : OS :=
  with_write_outcome os_plain
    (OpenFails "[Errno 13] Permission denied: './Music/index.json'").

End Fixtures.

(* ===================================================================== *)
(** ** The program *)
(* ===================================================================== *)

Section Indexer.

(** [unicodedata.normalize('NFC', _)] and [str.lower]. *)
Variable nfc : string -> string.
Variable lower : string -> string.

Variable os : OS.

(** The tuple passed to [endswith] on line 42. *)
Definition AUDIO_EXTENSIONS : list string := [".mp3"; ".m4a"; ".flac"; ".wav"].

(** [str(uuid.uuid4())]: one draw of sixteen random bytes. *)
Definition uuid4 : M string :=
  fun w =>
    (Ok (Uuid.uuid_str (Uuid.uuid_int (urandom16 os (drawn w)))),
     mkWorld (stdout w) (files w) (S (drawn w))).

(** Line 42: [song_filename.lower().endswith(('.mp3', '.m4a', '.flac', '.wav'))] *)
Definition is_audio (song_filename : string) : bool :=
  Str.endswith_any (lower song_filename) AUDIO_EXTENSIONS.

(** Lines 23 and 26: [os.path.isdir(path) and not name.startswith('.')] *)
Definition is_visible_dir (parent entry : string) : bool :=
  isdir os (OsPath.join parent entry) && negb (Str.startswith entry ".").

(** Line 32: [f"{artist_name_norm}-{album_name_norm}"] *)
Definition make_album_key (artist_name_norm album_name_norm : string) : string :=
  artist_name_norm ++ "-" ++ album_name_norm.

(** Lines 41-57: the body of the innermost loop. *)
Definition scan_song (artist_name_norm album_name_norm album_key : string)
    (song_filename : string) (all_albums : Dict.t) : M Dict.t :=
  if is_audio song_filename then
    let song_filename_norm := nfc song_filename in
    let song_title := fst (OsPath.splitext song_filename_norm) in
    let relative_path :=
      artist_name_norm ++ "/" ++ album_name_norm ++ "/" ++ song_filename_norm in
    song_id <- uuid4 ;;
    let song_entry :=
      mkSong song_id song_title artist_name_norm album_name_norm relative_path in
    match Dict.get album_key all_albums with
    | Some album =>
        ret (Dict.set album_key
               (mkAlbum (name album) (artist album)
                  (songs album ++ [song_entry])%list)
               all_albums)
    | None => raise (KeyError album_key)
    end
  else ret all_albums.

(** Lines 25-57: the body of the loop over the entries of an artist
    directory. *)
Definition scan_album (artist_path artist_name : string)
    (album_name : string) (all_albums : Dict.t) : M Dict.t :=
  let album_path := OsPath.join artist_path album_name in
  if is_visible_dir artist_path album_name then
    let artist_name_norm := nfc artist_name in
    let album_name_norm := nfc album_name in
    let album_key := make_album_key artist_name_norm album_name_norm in
    let all_albums :=
      if Dict.mem album_key all_albums then all_albums
      else Dict.set album_key (mkAlbum album_name_norm artist_name_norm [])
             all_albums in
    song_filenames <- lift (listdir os album_path) ;;
    for_in song_filenames
      (scan_song artist_name_norm album_name_norm album_key) all_albums
  else ret all_albums.

(** Lines 21-57: the body of the loop over the entries of the root. *)
Definition scan_artist (root_folder : string)
    (artist_name : string) (all_albums : Dict.t) : M Dict.t :=
  let artist_path := OsPath.join root_folder artist_name in
  if is_visible_dir root_folder artist_name then
    album_names <- lift (listdir os artist_path) ;;
    for_in album_names (scan_album artist_path artist_name) all_albums
  else ret all_albums.

(** Lines 15-60 of [create_music_index]: the traversal, up to and including
    [album_list = list(all_albums.values())]. *)
Definition build_index (root_folder : string) : M (list Album) :=
  print ("Starting scan in: " ++ root_folder) ;;;
  artist_names <- lift (listdir os root_folder) ;;
  all_albums <- for_in artist_names (scan_artist root_folder) [] ;;
  ret (Dict.values all_albums).

(** Lines 62-68: the [try] block.  Only [IOError] raised by [open] or by
    [json.dump] is caught. *)
Definition write_index (output_file : string) (album_list : list Album) : M unit :=
  match open_write os output_file with
  | WriteOk =>
      write_file output_file (Json album_list) ;;;
      print ("Successfully created '" ++ output_file ++ "' with "
             ++ Str.of_nat (length album_list) ++ " albums.")
  | OpenFails msg =>
      print ("Error writing to file: " ++ msg)
  | DumpFails msg =>
      write_file output_file Truncated ;;;
      print ("Error writing to file: " ++ msg)
  end.

Definition create_music_index (root_folder output_file : string) : M unit :=
  album_list <- build_index root_folder ;;
  write_index output_file album_list.

(** The [if __name__ == '__main__'] block, for a given value of the
    [music_directory] variable. *)
Definition main (music_directory : string) : M unit :=
  if isdir os music_directory then
    create_music_index music_directory
      (OsPath.join music_directory "index.json")
  else
    print ("Error: The specified directory does not exist: '"
           ++ music_directory ++ "'") ;;;
    print "Please create it and place your music inside, or change the 'music_directory' variable.".

(** The script as shipped: [music_directory = './Music']. *)
Definition script : M unit := main "./Music".

(* --------------------------------------------------------------------- *)
(** *** What a traversal reads and what it builds *)

(** The entries of a directory, when it can be listed. *)
Definition listing (p : string) : list string :=
  match listdir os p with Ok l => l | Raise _ => [] end.

Definition listable (p : string) : bool :=
  match listdir os p with Ok _ => true | Raise _ => false end.

(** The artist directories of the root and the album directories of an
    artist directory that pass the tests of lines 23 and 26. *)
Definition artist_dirs (root_folder : string) : list string :=
  filter (is_visible_dir root_folder) (listing root_folder).

Definition album_dirs_of (root_folder artist_name : string) : list string :=
  filter (is_visible_dir (OsPath.join root_folder artist_name))
         (listing (OsPath.join root_folder artist_name)).

(** All (artist, album) directory pairs, in the order the loops meet
    them. *)
Definition album_dirs (root_folder : string) : list (string * string) :=
  flat_map (fun a => map (pair a) (album_dirs_of root_folder a))
           (artist_dirs root_folder).

Definition album_path (root_folder : string) (ab : string * string) : string :=
  OsPath.join (OsPath.join root_folder (fst ab)) (snd ab).

(** The entries of an album directory that pass the test of line 42. *)
Definition audio_entries (root_folder : string) (ab : string * string)
  : list string :=
  filter is_audio (listing (album_path root_folder ab)).

(** The directories whose listing the traversal asks for (as long as no
    listing has failed): the root, its artist directories, their album
    directories. *)
Definition listed_dirs (root_folder : string) : list string :=
  root_folder
  :: (map (OsPath.join root_folder) (artist_dirs root_folder)
      ++ map (album_path root_folder) (album_dirs root_folder))%list.

(** Every directory the loops list can be listed. *)
Definition traversal_ok (root_folder : string) : bool :=
  forallb listable (listed_dirs root_folder).

(** The song entry built on lines 43-55 from the [i]-th random draw. *)
Definition new_song (i : nat) (artist_name_norm album_name_norm f : string)
  : Song :=
  mkSong (Uuid.uuid_str (Uuid.uuid_int (urandom16 os i)))
         (fst (OsPath.splitext (nfc f)))
         artist_name_norm album_name_norm
         (artist_name_norm ++ "/" ++ album_name_norm ++ "/" ++ nfc f).

Fixpoint new_songs (i : nat) (artist_name_norm album_name_norm : string)
    (fs : list string) : list Song :=
  match fs with
  | [] => []
  | f :: fs' =>
      new_song i artist_name_norm album_name_norm f
      :: new_songs (S i) artist_name_norm album_name_norm fs'
  end.

(** The songs of one album directory, the first one using draw [i]. *)
Definition songs_of_dir (root_folder : string) (i : nat) (ab : string * string)
  : list Song :=
  new_songs i (nfc (fst ab)) (nfc (snd ab)) (audio_entries root_folder ab).

Definition key_of_dir (ab : string * string) : string :=
  make_album_key (nfc (fst ab)) (nfc (snd ab)).

(** One album directory's effect on the dictionary and on the number of
    draws. *)
Definition visit (root_folder : string) (st : Dict.t * nat)
    (ab : string * string) : Dict.t * nat :=
  (DictOps.extend (key_of_dir ab) (songs_of_dir root_folder (snd st) ab)
     (DictOps.ensure (key_of_dir ab)
        (mkAlbum (nfc (snd ab)) (nfc (fst ab)) []) (fst st)),
   snd st + length (audio_entries root_folder ab)).

Definition visit_all (root_folder : string) (dirs : list (string * string))
    (st : Dict.t * nat) : Dict.t * nat :=
  fold_left (visit root_folder) dirs st.

(** All songs of the directories [dirs] in traversal order, the first one
    using draw [i]. *)
Fixpoint planned_songs (root_folder : string) (i : nat)
    (dirs : list (string * string)) : list Song :=
  match dirs with
  | [] => []
  | ab :: dirs' =>
      (songs_of_dir root_folder i ab
       ++ planned_songs root_folder
            (i + length (audio_entries root_folder ab)) dirs')%list
  end.

(** The directories listed while the loop over the root's entries [names]
    runs. *)
Definition listed_below (root : string) (names : list string) : list string :=
  let vis := filter (is_visible_dir root) names in
  (map (OsPath.join root) vis
   ++ map (album_path root)
        (flat_map (fun a => map (pair a) (album_dirs_of root a)) vis))%list.

Definition starting_line (root_folder : string) : string :=
  "Starting scan in: " ++ root_folder.

(** The dictionary and the number of draws after a traversal that started
    with [n] draws consumed. *)
Definition index_state (root_folder : string) (n : nat) : Dict.t * nat :=
  visit_all root_folder (album_dirs root_folder) (@pair Dict.t nat [] n).

(** All songs of a dictionary, album after album. *)
Definition all_songs (albums : list Album) : list Song := flat_map songs albums.

(** Every entry's key is the key of the artist and name it stores. *)
Definition keys_consistent (d : Dict.t) : Prop :=
  forall k alb, In (k, alb) d -> k = make_album_key (artist alb) (name alb).

(** The two invariants of the dictionary: keys are unique, and every key
    is the key of the artist and name stored under it. *)
Definition dict_ok (d : Dict.t) : Prop :=
  NoDup (Dict.keys d) /\ keys_consistent d.

(** The two lines printed when the music directory is not a directory. *)
Definition missing_directory_lines (music_directory : string) : list string :=
  [ "Error: The specified directory does not exist: '" ++ music_directory ++ "'";
    "Please create it and place your music inside, or change the 'music_directory' variable." ].

(* --------------------------------------------------------------------- *)
(** *** The vocabulary of the claims *)

(** What the development needs from [str.lower]: on the suffix tests of
    line 42 it agrees with ASCII lower-casing.  Python's [lower] maps
    ['A'..'Z'] to ['a'..'z'] and, besides, cased letters outside ASCII;
    none of those maps to or from a character of the four extensions, and
    in UTF-8 they are made of bytes above 127, so the last bytes of
    [lower s] are an extension exactly when the last bytes of the ASCII
    lower-casing of [s] are. *)
Definition lower_agrees_on_extensions : Prop :=
  forall s e, In e AUDIO_EXTENSIONS ->
    Str.endswith (lower s) e = Str.endswith (Str.ascii_lower s) e.

(** [s] ends in [e], letter case ignored: some suffix of [s] is [e] up to
    the case of its ASCII letters. *)
Definition ends_with_ignoring_case (s e : string) : Prop :=
  exists pre suf, s = pre ++ suf /\ Str.ascii_lower suf = Str.ascii_lower e.

(** The components joined with forward slashes and nothing else. *)
Definition slash_joined (a b f : string) : string :=
  String.concat "/" [a; b; f].

(** Every entry of every album directory the traversal visits, with its
    artist and album directory names. *)
Definition album_entries (root : string) : list (string * string * string) :=
  flat_map (fun ab => map (pair ab) (listing (album_path root ab)))
           (album_dirs root).

Definition entry_name (e : string * string * string) : string := snd e.

Definition entry_path (e : string * string * string) : string :=
  slash_joined (nfc (fst (fst e))) (nfc (snd (fst e))) (nfc (snd e)).

(** The UUID integer and the identifier made from the [i]-th draw. *)
Definition draw_uuid (i : nat) : Z := Uuid.uuid_int (urandom16 os i).
Definition draw_id (i : nat) : string := Uuid.uuid_str (draw_uuid i).

(** The songs that the directories [dirs] append under the key [k], the
    first directory starting at draw [n]. *)
Fixpoint songs_under (root k : string) (n : nat)
    (dirs : list (string * string)) : list Song :=
  match dirs with
  | [] => []
  | ab :: dirs' =>
      ((if String.eqb (key_of_dir ab) k
        then songs_of_dir root n ab else [])
       ++ songs_under root k (n + length (audio_entries root ab)) dirs')%list
  end.

(** The first directory whose key is [k]: the one that creates the album. *)
Definition creator (k : string) (dirs : list (string * string))
  : option (string * string) :=
  find (fun ab => String.eqb (key_of_dir ab) k) dirs.

Definition with_songs (alb : Album) (ss : list Song) : Album :=
  mkAlbum (name alb) (artist alb) (songs alb ++ ss)%list.

(** The directories with a given key, and the paths of the accepted
    entries of a directory. *)
Definition has_key (k : string) (ab : string * string) : bool :=
  String.eqb (key_of_dir ab) k.

Definition paths_of_dir (root : string) (ab : string * string) : list string :=
  map (fun f => slash_joined (nfc (fst ab)) (nfc (snd ab)) (nfc f))
      (audio_entries root ab).

(* --------------------------------------------------------------------- *)
(** *** More vocabulary: the album list and the messages *)

(** The key under which a record was stored, read back from its fields. *)
Definition record_key (r : Album) : string :=
  make_album_key (artist r) (name r).

(** A list without its repetitions, each element at the place of its
    first occurrence. *)
Fixpoint first_occurrences (ks : list string) : list string :=
  match ks with
  | [] => []
  | k :: ks' =>
      k :: filter (fun k' => negb (String.eqb k' k)) (first_occurrences ks')
  end.

(** The key [k] is not among the keys [ks]. *)
Definition fresh (ks : list string) (k : string) : bool :=
  negb (existsb (String.eqb k) ks).

(** No two visited directory pairs with different normalized names have
    the same key string. *)
Definition no_key_collision (root : string) : Prop :=
  forall ab1 ab2,
    In ab1 (album_dirs root) -> In ab2 (album_dirs root) ->
    key_of_dir ab1 = key_of_dir ab2 ->
    nfc (fst ab1) = nfc (fst ab2) /\ nfc (snd ab1) = nfc (snd ab2).

(** The lines printed on lines 66 and 68. *)
Definition success_line (output_file : string) (album_list : list Album)
  : string :=
  "Successfully created '" ++ output_file ++ "' with "
  ++ Str.of_nat (length album_list) ++ " albums.".

Definition write_error_line (msg : string) : string :=
  "Error writing to file: " ++ msg.

(** A string without the character [c]. *)
Definition lacks (c : ascii) (s : string) : Prop := Str.rfind c s = None.

(* ===================================================================== *)
(** * Properties *)
(* ===================================================================== *)

(* ===================================================================== *)
(** ** Facts about strings *)
(* ===================================================================== *)

Lemma endswith_app (s suf : string) :
  Str.endswith s suf = true <-> exists pre, s = pre ++ suf.
Proof.
  induction s as [|c s IH].
  - simpl. rewrite orb_false_r. split.
    + intros H. exists "". destruct suf; [reflexivity | discriminate].
    + intros [pre H]. destruct pre; simpl in H.
      * subst suf. reflexivity.
      * discriminate.
  - change (Str.endswith (String c s) suf)
      with (String.eqb (String c s) suf || Str.endswith s suf).
    rewrite orb_true_iff, String.eqb_eq, IH. split.
    + intros [<- | [pre ->]]; [now exists "" | now exists (String c pre)].
    + intros [pre H]. destruct pre as [|d pre]; simpl in H.
      * now left.
      * injection H as _ ->. right. now exists pre.
Qed.

(* ===================================================================== *)
(** ** Facts about the dictionary *)
(* ===================================================================== *)

Section DictFacts.
Import Dict.

Lemma dict_get_set_same k v d : get k (set k v d) = Some v.
Proof.
  induction d as [|[k' v'] d IH]; simpl.
  - now rewrite String.eqb_refl.
  - destruct (String.eqb_spec k k') as [->|Hne]; simpl.
    + now rewrite String.eqb_refl.
    + destruct (String.eqb_spec k k'); [contradiction | exact IH].
Qed.

Lemma dict_get_set_other k k' v d : k <> k' -> get k (set k' v d) = get k d.
Proof.
  intros Hne. induction d as [|[k2 v2] d IH]; simpl.
  - destruct (String.eqb_spec k k'); [contradiction | reflexivity].
  - destruct (String.eqb_spec k' k2) as [->|Hne2]; simpl.
    + destruct (String.eqb_spec k k2); [contradiction | reflexivity].
    + destruct (String.eqb_spec k k2); [reflexivity | exact IH].
Qed.

Lemma dict_set_set k v1 v2 d : set k v2 (set k v1 d) = set k v2 d.
Proof.
  induction d as [|[k' v'] d IH]; simpl.
  - now rewrite String.eqb_refl.
  - destruct (String.eqb_spec k k') as [->|Hne]; simpl.
    + now rewrite String.eqb_refl.
    + destruct (String.eqb_spec k k'); [contradiction | now rewrite IH].
Qed.

Lemma dict_get_In k v d : get k d = Some v -> In (k, v) d.
Proof.
  induction d as [|[k' v'] d IH]; simpl; [discriminate|].
  destruct (String.eqb_spec k k') as [->|Hne].
  - intros [= ->]. now left.
  - intros H. right. now apply IH.
Qed.

Lemma dict_get_None_keys k d : get k d = None <-> ~ In k (keys d).
Proof.
  induction d as [|[k' v'] d IH]; simpl; [tauto|].
  destruct (String.eqb_spec k k') as [->|Hne].
  - split; [discriminate | intros H; exfalso; apply H; now left].
  - rewrite IH. split; [intros H [Heq | Hin]; [congruence | tauto] | tauto].
Qed.

Lemma dict_keys_set_present k v d :
  In k (keys d) -> keys (set k v d) = keys d.
Proof.
  induction d as [|[k' v'] d IH]; simpl; [tauto|].
  destruct (String.eqb_spec k k') as [->|Hne]; simpl; [reflexivity|].
  intros [Heq | Hin]; [congruence | now rewrite IH].
Qed.

Lemma dict_set_absent k v d :
  ~ In k (keys d) -> set k v d = (d ++ [(k, v)])%list.
Proof.
  induction d as [|[k' v'] d IH]; simpl; [reflexivity|].
  destruct (String.eqb_spec k k') as [->|Hne]; simpl.
  - intros H. exfalso. apply H. now left.
  - intros H. rewrite IH; [reflexivity | tauto].
Qed.

End DictFacts.

(* ===================================================================== *)
(** ** The loops, from the inside out *)
(* ===================================================================== *)

Lemma new_songs_length i a b fs : length (new_songs i a b fs) = length fs.
Proof. revert i; induction fs; intros; simpl; congruence. Qed.

Lemma extend_nil k d : DictOps.extend k [] d = d.
Proof.
  unfold DictOps.extend.
  destruct (Dict.get k d) as [alb|] eqn:Hg; [|reflexivity].
  rewrite app_nil_r. clear -Hg.
  induction d as [|[k' v'] d IH]; simpl in *; [discriminate|].
  destruct (String.eqb_spec k k') as [->|Hne].
  - injection Hg as ->. now destruct alb.
  - now rewrite IH.
Qed.

Lemma extend_cons k s ss d :
  DictOps.extend k (s :: ss) d = DictOps.extend k ss (DictOps.extend k [s] d).
Proof.
  unfold DictOps.extend.
  destruct (Dict.get k d) as [alb|] eqn:Hg.
  - rewrite dict_get_set_same. simpl.
    rewrite dict_set_set, <- app_assoc. reflexivity.
  - now rewrite Hg.
Qed.

(** The innermost loop (lines 40-57) never fails once the album's key is
    in the dictionary; it appends one entry per accepted name and consumes
    one draw for each. *)
Lemma scan_songs_spec a b k fs d w :
  Dict.mem k d = true ->
  for_in fs (scan_song a b k) d w =
    (Ok (DictOps.extend k (new_songs (drawn w) a b (filter (is_audio) fs)) d),
     mkWorld (stdout w) (files w)
             (drawn w + length (filter (is_audio) fs))).
Proof.
  revert d w. induction fs as [|f fs IH]; intros d w Hmem.
  - simpl. unfold ret. f_equal.
    + now rewrite extend_nil.
    + destruct w; simpl. now rewrite Nat.add_0_r.
  - simpl for_in. unfold bind at 1. unfold scan_song at 1.
    destruct (is_audio f) eqn:Ha.
    + simpl filter. rewrite Ha. unfold bind, uuid4.
      unfold Dict.mem in Hmem.
      destruct (Dict.get k d) as [alb|] eqn:Hg; [|discriminate].
      unfold ret. rewrite IH.
      * simpl drawn. simpl new_songs. rewrite extend_cons.
        unfold DictOps.extend at 3. rewrite Hg. unfold new_song. simpl.
        f_equal. f_equal. lia.
      * unfold Dict.mem. now rewrite dict_get_set_same.
    + simpl filter. rewrite Ha. unfold ret. now apply IH.
Qed.

Lemma mem_ensure k v d : Dict.mem k (DictOps.ensure k v d) = true.
Proof.
  unfold DictOps.ensure. destruct (Dict.mem k d) eqn:Hm; [exact Hm|].
  unfold Dict.mem. now rewrite dict_get_set_same.
Qed.

(** One iteration of the loop over an artist directory (lines 25-57), for
    an entry that passes the test of line 26. *)
Lemma scan_album_visible root a b d w :
  is_visible_dir (OsPath.join root a) b = true ->
  scan_album (OsPath.join root a) a b d w =
    match listdir os (album_path root (a, b)) with
    | Ok _ =>
        (Ok (fst (visit root (d, drawn w) (a, b))),
         mkWorld (stdout w) (files w) (snd (visit root (d, drawn w) (a, b))))
    | Raise e => (Raise e, w)
    end.
Proof.
  intros Hvis. unfold scan_album. rewrite Hvis.
  unfold bind, lift. unfold album_path. simpl fst. simpl snd.
  destruct (listdir os (OsPath.join (OsPath.join root a) b)) as [fs|e] eqn:Hl;
    [|reflexivity].
  change (if Dict.mem (make_album_key (nfc a) (nfc b)) d then d
          else Dict.set (make_album_key (nfc a) (nfc b))
                 (mkAlbum (nfc b) (nfc a) []) d)
    with (DictOps.ensure (make_album_key (nfc a) (nfc b))
            (mkAlbum (nfc b) (nfc a) []) d).
  rewrite scan_songs_spec by apply mem_ensure.
  unfold visit, songs_of_dir, audio_entries, key_of_dir, album_path, listing.
  simpl fst. simpl snd. rewrite Hl. reflexivity.
Qed.

Lemma scan_album_hidden ap a b d w :
  is_visible_dir ap b = false ->
  scan_album ap a b d w = (Ok d, w).
Proof. intros H. unfold scan_album. now rewrite H. Qed.

(** The loop over the entries [bs] of an artist directory. *)
Lemma scan_albums_spec root a bs d w :
  let vis := filter (is_visible_dir (OsPath.join root a)) bs in
  match for_in bs (scan_album (OsPath.join root a) a) d w with
  | (Ok d', w') =>
      forallb (fun b => listable (album_path root (a, b))) vis = true /\
      (d', drawn w') = visit_all root (map (pair a) vis) (d, drawn w) /\
      stdout w' = stdout w /\ files w' = files w
  | (Raise e, w') =>
      (exists b, In b vis /\ listdir os (album_path root (a, b)) = Raise e) /\
      stdout w' = stdout w /\ files w' = files w
  end.
Proof.
  revert d w. induction bs as [|b bs IH]; intros d w; simpl.
  - now repeat split.
  - unfold bind.
    destruct (is_visible_dir (OsPath.join root a) b) eqn:Hvis.
    + rewrite scan_album_visible by exact Hvis.
      destruct (listdir os (album_path root (a, b))) as [fs|e] eqn:Hl.
      * set (st := visit root (d, drawn w) (a, b)).
        specialize (IH (fst st) (mkWorld (stdout w) (files w) (snd st))).
        destruct (for_in bs _ (fst st) _) as [[d'|e] w'].
        -- destruct IH as (Hok & Hrun & Hout & Hfiles).
           cbn [forallb]. unfold listable at 1. rewrite Hl, Hok.
           repeat split; assumption.
        -- destruct IH as ((b' & Hin & Hb') & Hout & Hfiles).
           repeat split; try assumption.
           exists b'. split; [now right | exact Hb'].
      * repeat split. exists b. split; [now left | exact Hl].
    + rewrite scan_album_hidden by exact Hvis.
      apply IH.
Qed.

Lemma listed_below_cons_visible root a names p :
  is_visible_dir root a = true ->
  In p (listed_below root (a :: names)) <->
  p = OsPath.join root a
  \/ (exists b, In b (album_dirs_of root a) /\ p = album_path root (a, b))
  \/ In p (listed_below root names).
Proof.
  intros Hvis. unfold listed_below. simpl filter. rewrite Hvis.
  cbn [map flat_map In]. rewrite map_app, map_map, !in_app_iff.
  rewrite (in_map_iff (fun x => album_path root (a, x))).
  split.
  - intros [[Heq | Hin] | [[b [Hb Hin]] | Hin]].
    + left. now symmetry.
    + right. right. left. exact Hin.
    + right. left. exists b. split; [exact Hin | now symmetry].
    + right. right. right. exact Hin.
  - intros [Heq | [[b [Hin Hb]] | [Hin | Hin]]].
    + left. left. now symmetry.
    + right. left. exists b. split; [now symmetry | exact Hin].
    + left. right. exact Hin.
    + right. right. exact Hin.
Qed.

Lemma listed_below_cons_hidden root a names :
  is_visible_dir root a = false ->
  listed_below root (a :: names) = listed_below root names.
Proof. intros H. unfold listed_below. simpl filter. now rewrite H. Qed.

Lemma visit_all_app root l1 l2 st :
  visit_all root (l1 ++ l2) st = visit_all root l2 (visit_all root l1 st).
Proof. apply fold_left_app. Qed.

(** The loop over the entries [names] of the root (lines 20-57). *)
Lemma scan_artists_spec root names d w :
  let dirs := flat_map (fun a => map (pair a) (album_dirs_of root a))
                (filter (is_visible_dir root) names) in
  match for_in names (scan_artist root) d w with
  | (Ok d', w') =>
      (forall p, In p (listed_below root names) -> listable p = true) /\
      (d', drawn w') = visit_all root dirs (d, drawn w) /\
      stdout w' = stdout w /\ files w' = files w
  | (Raise e, w') =>
      (exists p, In p (listed_below root names) /\ listdir os p = Raise e) /\
      stdout w' = stdout w /\ files w' = files w
  end.
Proof.
  revert d w. induction names as [|a names IH]; intros d w.
  - simpl. repeat split. intros p [].
  - cbn [for_in]. unfold bind. unfold scan_artist at 1.
    destruct (is_visible_dir root a) eqn:Hvis.
    + cbn [filter]. rewrite Hvis. cbn [flat_map].
      unfold bind, lift.
      destruct (listdir os (OsPath.join root a)) as [bs|e] eqn:Hl.
      * pose proof (scan_albums_spec root a bs d w) as Halb. cbv zeta in Halb.
        assert (Hdirs : album_dirs_of root a
                        = filter (is_visible_dir (OsPath.join root a)) bs).
        { unfold album_dirs_of, listing. now rewrite Hl. }
        destruct (for_in bs _ d w) as [[d1|e] w1].
        -- destruct Halb as (Hok1 & Hrun1 & Hout1 & Hfiles1).
           specialize (IH d1 w1).
           destruct (for_in names _ d1 w1) as [[d2|e] w2].
           ++ destruct IH as (Hok2 & Hrun2 & Hout2 & Hfiles2).
              repeat split; try congruence.
              ** intros p Hp.
                 apply (proj1 (@listed_below_cons_visible root a names p Hvis)) in Hp.
                 destruct Hp as [-> | [[b [Hb ->]] | Hp]].
                 --- unfold listable. now rewrite Hl.
                 --- rewrite forallb_forall in Hok1. apply Hok1.
                     now rewrite <- Hdirs.
                 --- now apply Hok2.
              ** rewrite visit_all_app, Hdirs, <- Hrun1. exact Hrun2.
           ++ destruct IH as ((p & Hp & Hpe) & Hout2 & Hfiles2).
              repeat split; try congruence.
              exists p. split; [|exact Hpe].
              apply (proj2 (@listed_below_cons_visible root a names p Hvis)). auto.
        -- destruct Halb as ((b & Hb & Hbe) & Hout1 & Hfiles1).
           repeat split; try assumption.
           exists (album_path root (a, b)). split; [|exact Hbe].
           apply (proj2 (@listed_below_cons_visible root a names _ Hvis)).
           right. left. exists b. split; [now rewrite Hdirs | reflexivity].
      * repeat split. exists (OsPath.join root a). split; [|exact Hl].
        apply (proj2 (@listed_below_cons_visible root a names _ Hvis)). now left.
    + cbn [filter]. rewrite Hvis. unfold ret.
      rewrite (@listed_below_cons_hidden root a names Hvis). apply IH.
Qed.

(** *** The traversal as a whole *)

(** A traversal in which every listing succeeds returns the album list of
    [index_state]; it prints one line and writes no file. *)
Lemma build_index_ok root w :
  traversal_ok root = true ->
  build_index root w =
    (Ok (Dict.values (fst (index_state root (drawn w)))),
     mkWorld (stdout w ++ [starting_line root])%list (files w)
             (snd (index_state root (drawn w)))).
Proof.
  unfold traversal_ok, listed_dirs. cbn [forallb].
  rewrite andb_true_iff. intros [Hroot Hall].
  unfold build_index, bind, print, lift.
  unfold listable in Hroot.
  destruct (listdir os root) as [names|e] eqn:Hl; [|discriminate].
  set (w0 := mkWorld (stdout w ++ [_])%list (files w) (drawn w)).
  pose proof (scan_artists_spec root names [] w0) as Hs. cbv zeta in Hs.
  assert (Hnames : listing root = names) by (unfold listing; now rewrite Hl).
  destruct (for_in names (scan_artist root) [] w0) as [[d'|e] w'].
  - destruct Hs as (_ & Hrun & Hout & Hfiles).
    unfold ret, index_state, album_dirs, artist_dirs. rewrite Hnames.
    subst w0. cbn [drawn stdout files] in Hrun, Hout, Hfiles.
    rewrite <- Hrun. simpl.
    destruct w'; simpl in *. subst. reflexivity.
  - exfalso. destruct Hs as ((p & Hp & Hpe) & _).
    rewrite forallb_forall in Hall.
    assert (Hlp : listable p = true).
    { apply Hall. unfold album_dirs, artist_dirs. rewrite Hnames. exact Hp. }
    unfold listable in Hlp. now rewrite Hpe in Hlp.
Qed.

(** A traversal in which some listing fails raises that listing's error;
    it writes no file. *)
Lemma build_index_fails root w :
  traversal_ok root = false ->
  exists p e w',
    In p (listed_dirs root) /\ listdir os p = Raise e /\
    build_index root w = (Raise e, w') /\
    stdout w' = (stdout w ++ [starting_line root])%list /\
    files w' = files w.
Proof.
  intros Hbad.
  unfold build_index, bind, print, lift.
  destruct (listdir os root) as [names|e] eqn:Hl.
  - set (w0 := mkWorld (stdout w ++ [_])%list (files w) (drawn w)).
    pose proof (scan_artists_spec root names [] w0) as Hs. cbv zeta in Hs.
    assert (Hnames : listing root = names) by (unfold listing; now rewrite Hl).
    destruct (for_in names (scan_artist root) [] w0) as [[d'|e] w'].
    + exfalso. destruct Hs as (Hok & _).
      assert (Htrue : traversal_ok root = true); [|congruence].
      unfold traversal_ok, listed_dirs. cbn [forallb].
      apply andb_true_iff. split.
      * unfold listable. now rewrite Hl.
      * apply forallb_forall. intros p Hp. apply Hok.
        unfold listed_below. unfold album_dirs, artist_dirs in Hp.
        now rewrite Hnames in Hp.
    + destruct Hs as ((p & Hp & Hpe) & Hout & Hfiles).
      exists p, e, w'. repeat split; try assumption.
      right. unfold album_dirs, artist_dirs. now rewrite Hnames.
  - exists root, e, (mkWorld (stdout w ++ [starting_line root])%list
                            (files w) (drawn w)).
    repeat split; try assumption. now left.
Qed.

Lemma set_split k alb v d :
  Dict.get k d = Some alb ->
  exists d1 d2,
    d = (d1 ++ (k, alb) :: d2)%list /\
    Dict.set k v d = (d1 ++ (k, v) :: d2)%list /\
    ~ In k (Dict.keys d1).
Proof.
  induction d as [|[k' v'] d IH]; simpl; [discriminate|].
  destruct (String.eqb_spec k k') as [->|Hne].
  - intros [= ->]. exists [], d. repeat split. intros [].
  - intros Hg. destruct (IH Hg) as (d1 & d2 & -> & Hs & Hnot).
    exists ((k', v') :: d1), d2. simpl. rewrite Hs. repeat split.
    intros [Heq | Hin]; [congruence | contradiction].
Qed.

Lemma all_songs_app (l1 l2 : list Album) :
  all_songs (l1 ++ l2)%list = (all_songs l1 ++ all_songs l2)%list.
Proof. apply flat_map_app. Qed.

Lemma values_app (d1 d2 : Dict.t) :
  Dict.values (d1 ++ d2)%list = (Dict.values d1 ++ Dict.values d2)%list.
Proof. apply map_app. Qed.

Lemma keys_app (d1 d2 : Dict.t) :
  Dict.keys (d1 ++ d2)%list = (Dict.keys d1 ++ Dict.keys d2)%list.
Proof. apply map_app. Qed.

(** Creating an empty album adds no song. *)
Lemma ensure_songs k nm ar d :
  all_songs (Dict.values (DictOps.ensure k (mkAlbum nm ar []) d))
  = all_songs (Dict.values d).
Proof.
  unfold DictOps.ensure, Dict.mem.
  destruct (Dict.get k d) eqn:Hg; [reflexivity|].
  rewrite dict_set_absent by now apply dict_get_None_keys.
  rewrite values_app, all_songs_app. simpl. now rewrite app_nil_r.
Qed.

(** Appending to an album that is there adds exactly the appended songs. *)
Lemma extend_songs k ss d :
  Dict.mem k d = true ->
  Permutation (all_songs (Dict.values (DictOps.extend k ss d)))
              (all_songs (Dict.values d) ++ ss)%list.
Proof.
  unfold Dict.mem, DictOps.extend.
  destruct (Dict.get k d) as [alb|] eqn:Hg; [intros _ | discriminate].
  destruct (@set_split k alb
              (mkAlbum (name alb) (artist alb) (songs alb ++ ss)%list) d Hg)
    as (d1 & d2 & Hd & Hs & _).
  rewrite Hs, Hd, !values_app, !all_songs_app. simpl.
  rewrite <- !app_assoc. apply Permutation_app_head.
  apply Permutation_app_head. apply Permutation_app_comm.
Qed.

Lemma visit_all_cons root ab dirs st :
  visit_all root (ab :: dirs) st = visit_all root dirs (visit root st ab).
Proof. reflexivity. Qed.

(** The songs of the dictionary after a traversal are, up to the grouping
    into albums, the songs of the visited directories in traversal
    order. *)
Lemma visit_all_songs root dirs d n :
  Permutation (all_songs (Dict.values (fst (visit_all root dirs (d, n)))))
              (all_songs (Dict.values d) ++ planned_songs root n dirs)%list.
Proof.
  revert d n. induction dirs as [|ab dirs IH]; intros d n.
  - simpl. now rewrite app_nil_r.
  - rewrite visit_all_cons. unfold visit at 1. cbn [fst snd].
    rewrite IH. cbn [planned_songs].
    rewrite app_assoc. apply Permutation_app_tail.
    rewrite extend_songs by apply mem_ensure.
    now rewrite ensure_songs.
Qed.

Lemma visit_all_draws root dirs st :
  snd (visit_all root dirs st)
  = snd st + length (planned_songs root (snd st) dirs).
Proof.
  revert st. induction dirs as [|ab dirs IH]; intros [d n].
  - simpl. lia.
  - rewrite visit_all_cons, IH. unfold visit. cbn [fst snd].
    cbn [planned_songs].
    rewrite length_app. unfold songs_of_dir.
    rewrite new_songs_length. lia.
Qed.

(** Where a planned song comes from, and that every accepted entry is
    planned. *)
Lemma in_new_songs s i a b fs :
  In s (new_songs i a b fs) <->
  exists j f, nth_error fs j = Some f /\ s = new_song (i + j) a b f.
Proof.
  revert i. induction fs as [|f fs IH]; intros i; simpl.
  - split; [tauto | intros (j & f & H & _); destruct j; discriminate].
  - rewrite IH. split.
    + intros [<- | (j & f' & Hj & ->)].
      * exists 0, f. now rewrite Nat.add_0_r.
      * exists (S j), f'. split; [exact Hj | f_equal; lia].
    + intros ([|j] & f' & Hj & ->); simpl in Hj.
      * injection Hj as ->. left. now rewrite Nat.add_0_r.
      * right. exists j, f'. split; [exact Hj | f_equal; lia].
Qed.

Lemma planned_songs_origin root s n dirs :
  In s (planned_songs root n dirs) ->
  exists ab i f,
    In ab dirs /\ In f (audio_entries root ab) /\
    s = new_song i (nfc (fst ab)) (nfc (snd ab)) f.
Proof.
  revert n. induction dirs as [|ab dirs IH]; intros n; simpl; [tauto|].
  rewrite in_app_iff. unfold songs_of_dir. rewrite in_new_songs.
  intros [(j & f & Hj & ->) | Hin].
  - exists ab, (n + j), f. repeat split; auto.
    now apply nth_error_In in Hj.
  - destruct (IH _ Hin) as (ab' & i & f & Hab & Hf & ->).
    exists ab', i, f. auto.
Qed.

Lemma planned_songs_complete root n dirs ab f :
  In ab dirs -> In f (audio_entries root ab) ->
  exists i, In (new_song i (nfc (fst ab)) (nfc (snd ab)) f)
               (planned_songs root n dirs).
Proof.
  revert n. induction dirs as [|ab' dirs IH]; intros n; simpl; [tauto|].
  intros [-> | Hin] Hf.
  - apply In_nth_error in Hf. destruct Hf as [j Hj].
    exists (n + j). apply in_app_iff. left.
    unfold songs_of_dir. apply in_new_songs. now exists j, f.
  - destruct (IH (n + length (audio_entries root ab')) Hin Hf) as [i Hi].
    exists i. apply in_app_iff. now right.
Qed.

(* ===================================================================== *)
(** ** The entry point *)
(* ===================================================================== *)

(** Writing the index never raises. *)
Lemma write_index_ok out albums w :
  exists w', write_index out albums w = (Ok tt, w').
Proof.
  unfold write_index. destruct (open_write os out); eexists; reflexivity.
Qed.

(** A traversal in which every listing succeeds makes the whole of
    [create_music_index] return: only a failed listing aborts a run. *)
Lemma create_music_index_returns root out w :
  traversal_ok root = true ->
  exists w', create_music_index root out w = (Ok tt, w').
Proof.
  intros Hok. unfold create_music_index, bind.
  rewrite build_index_ok by exact Hok. apply write_index_ok.
Qed.

(** The first thing a traversal does is print its starting line. *)
Lemma build_index_announces root w :
  exists rest,
    stdout (snd (build_index root w))
    = (stdout w ++ starting_line root :: rest)%list.
Proof.
  destruct (traversal_ok root) eqn:Hok.
  - rewrite build_index_ok by exact Hok. now exists [].
  - destruct (build_index_fails root w Hok)
      as (p & e & w' & _ & _ & -> & Hout & _).
    exists []. exact Hout.
Qed.

(** C7.  When the music directory does not exist or is not a directory
    ([os.path.isdir] is false), the script prints its two diagnostic lines
    on standard output and returns: no file is written, no random draw is
    made, and the line that every call of the traversal prints first is
    not printed, so the traversal was not started. *)
Theorem invalid_root_reported (music_directory : string) (w : World) :
  isdir os music_directory = false ->
  main music_directory w =
    (Ok tt,
     mkWorld (stdout w ++ missing_directory_lines music_directory)%list
             (files w) (drawn w))
  /\ (forall root, ~ In (starting_line root)
                        (missing_directory_lines music_directory))
  /\ (forall root w0, In (starting_line root)
                         (stdout (snd (build_index root w0)))).
Proof.
  intros Hdir. split; [|split].
  - unfold main. rewrite Hdir. unfold bind, print. simpl.
    now rewrite <- app_assoc.
  - intros root [H | [H | []]]; discriminate.
  - intros root w0. destruct (build_index_announces root w0) as [rest ->].
    apply in_app_iff. right. now left.
Qed.

(** C8.  When the listing of any directory the traversal asks for fails
    (the root, an artist directory or an album directory), the error of a
    failing listing propagates out of [create_music_index] and out of the
    script, and the files are what they were: nothing is written, not even
    a partial index. *)
Theorem listing_failure_aborts (root_folder output_file p : string) (w : World) :
  In p (listed_dirs root_folder) ->
  listable p = false ->
  exists q e w',
    In q (listed_dirs root_folder) /\ listdir os q = Raise e /\
    create_music_index root_folder output_file w = (Raise e, w') /\
    files w' = files w /\
    (isdir os root_folder = true ->
     main root_folder w = (Raise e, w')).
Proof.
  intros Hp Hbad.
  assert (Hnok : traversal_ok root_folder = false).
  { destruct (traversal_ok root_folder) eqn:Hok; [|reflexivity].
    unfold traversal_ok in Hok. rewrite forallb_forall in Hok.
    rewrite (Hok p Hp) in Hbad. discriminate. }
  destruct (build_index_fails root_folder w Hnok)
    as (q & e & w' & Hq & He & Hrun & _ & Hfiles).
  exists q, e, w'. repeat split; try assumption.
  - unfold create_music_index, bind. now rewrite Hrun.
  - intros Hdir. unfold main. rewrite Hdir.
    unfold create_music_index, bind. now rewrite Hrun.
Qed.

(* ===================================================================== *)
(** ** Which entries become songs *)
(* ===================================================================== *)

Lemma ascii_lower_app s t :
  Str.ascii_lower (s ++ t) = Str.ascii_lower s ++ Str.ascii_lower t.
Proof. induction s; simpl; congruence. Qed.

Lemma ascii_lower_split s p t :
  Str.ascii_lower s = p ++ t ->
  exists s1 s2, s = s1 ++ s2 /\ Str.ascii_lower s1 = p /\ Str.ascii_lower s2 = t.
Proof.
  revert s. induction p as [|c p IH]; intros s H; simpl in H.
  - exists "", s. auto.
  - destruct s as [|d s]; simpl in H; [discriminate|].
    injection H as Hc Hs. destruct (IH s Hs) as (s1 & s2 & -> & H1 & H2).
    exists (String d s1), s2. simpl. repeat split; congruence.
Qed.

Lemma extensions_lower_case e :
  In e AUDIO_EXTENSIONS -> Str.ascii_lower e = e.
Proof.
  intros [<- | [<- | [<- | [<- | []]]]]; reflexivity.
Qed.

Lemma is_audio_ascii f :
  lower_agrees_on_extensions ->
  is_audio f = Str.endswith_any (Str.ascii_lower f) AUDIO_EXTENSIONS.
Proof.
  intros Hl. unfold is_audio, Str.endswith_any, AUDIO_EXTENSIONS. simpl.
  rewrite !Hl by (simpl; tauto). reflexivity.
Qed.

(** The test of line 42 is the case-insensitive suffix test. *)
Lemma is_audio_iff f :
  lower_agrees_on_extensions ->
  is_audio f = true <->
  exists e, In e AUDIO_EXTENSIONS /\ ends_with_ignoring_case f e.
Proof.
  intros Hl. rewrite is_audio_ascii by exact Hl.
  unfold Str.endswith_any. rewrite existsb_exists.
  split; intros (e & He & H); exists e; (split; [exact He|]).
  - apply endswith_app in H. destruct H as [pre H].
    destruct (ascii_lower_split _ _ _ H) as (s1 & s2 & -> & _ & H2).
    exists s1, s2. split; [reflexivity|].
    now rewrite (extensions_lower_case e He).
  - destruct H as (pre & suf & -> & H).
    apply endswith_app. exists (Str.ascii_lower pre).
    rewrite ascii_lower_app, H. now rewrite (extensions_lower_case e He).
Qed.

(** A successful traversal returns the planned songs, grouped by album. *)
Lemma build_index_songs root w :
  traversal_ok root = true ->
  exists idx w',
    build_index root w = (Ok idx, w') /\
    Permutation (all_songs idx)
                (planned_songs root (drawn w) (album_dirs root)).
Proof.
  intros Hok. rewrite build_index_ok by exact Hok.
  eexists _, _. split; [reflexivity|].
  unfold index_state. rewrite visit_all_songs. reflexivity.
Qed.

Lemma new_songs_paths i a b fs :
  map relativePath (new_songs i (nfc a) (nfc b) fs)
  = map (fun f => slash_joined (nfc a) (nfc b) (nfc f)) fs.
Proof.
  revert i. induction fs as [|f fs IH]; intros i; simpl; [reflexivity|].
  now rewrite IH.
Qed.

Lemma filter_entries_of_dir ab names :
  filter (fun e => is_audio (entry_name e)) (map (pair ab) names)
  = map (pair ab) (filter (is_audio) names).
Proof.
  induction names as [|f names IH]; [reflexivity|].
  cbn [map filter]. unfold entry_name at 1. cbn [snd].
  destruct (is_audio f); cbn [map]; now rewrite IH.
Qed.

(** The paths of the planned songs are the paths of the accepted entries,
    in traversal order. *)
Lemma planned_songs_paths root n dirs :
  map relativePath (planned_songs root n dirs)
  = map entry_path
      (filter (fun e => is_audio (entry_name e))
         (flat_map (fun ab => map (pair ab) (listing (album_path root ab)))
            dirs)).
Proof.
  revert n. induction dirs as [|[a b] dirs IH]; intros n; simpl; [reflexivity|].
  rewrite map_app, filter_app, map_app, IH. f_equal.
  unfold songs_of_dir, audio_entries. simpl fst. simpl snd.
  rewrite new_songs_paths, filter_entries_of_dir, map_map. reflexivity.
Qed.

(** An entry that passes the test of line 42 in a visited album directory
    has its song in the index. *)
Lemma accepted_entry_has_song root idx n a b f :
  Permutation (all_songs idx)
              (planned_songs root n (album_dirs root)) ->
  In (a, b) (album_dirs root) ->
  In f (listing (album_path root (a, b))) ->
  is_audio f = true ->
  exists s, In s (all_songs idx) /\
            relativePath s = slash_joined (nfc a) (nfc b) (nfc f) /\
            title s = fst (OsPath.splitext (nfc f)) /\
            song_artist s = nfc a /\ song_album s = nfc b.
Proof.
  intros Hperm Hab Hf Ha.
  assert (Hacc : In f (audio_entries root (a, b))).
  { unfold audio_entries. apply filter_In. now split. }
  destruct (planned_songs_complete root n _ _ _ Hab Hacc) as [i Hi].
  exists (new_song i (nfc a) (nfc b) f). split.
  - eapply Permutation_in; [symmetry; exact Hperm | exact Hi].
  - repeat split.
Qed.

(** C3.  The test applied to an entry name is the case-insensitive test
    for one of the four extensions; a successful traversal creates exactly
    one song per entry of a visited album directory that passes it and none
    for the others (the paths of the songs are, up to order, the paths of
    the passing entries); [track.MP3] passes and [cover.jpg] does not. *)
Theorem extension_filter (root : string) (w : World) :
  lower_agrees_on_extensions ->
  (forall f, is_audio f = true <->
             exists e, In e [".mp3"; ".m4a"; ".flac"; ".wav"] /\
                       ends_with_ignoring_case f e)
  /\ (traversal_ok root = true ->
      exists idx w',
        build_index root w = (Ok idx, w') /\
        Permutation
          (map relativePath (all_songs idx))
          (map entry_path
             (filter (fun e => is_audio (entry_name e))
                     (album_entries root))))
  /\ is_audio "track.MP3" = true
  /\ is_audio "cover.jpg" = false.
Proof.
  intros Hl. split; [|split; [|split]].
  - intros f. now apply is_audio_iff.
  - intros Hok. destruct (build_index_songs root w Hok) as (idx & w' & Hrun & Hperm).
    exists idx, w'. split; [exact Hrun|].
    unfold album_entries. rewrite <- planned_songs_paths with (n := drawn w).
    now apply Permutation_map.
  - now rewrite is_audio_ascii.
  - now rewrite is_audio_ascii.
Qed.

(** C5.  After a successful traversal every song of the index comes from
    an accepted entry [f] of a visited album directory [a]/[b], and its
    [relativePath] is the normalized artist, album and file names joined
    with forward slashes and nothing else; conversely, an accepted entry
    whose three names normalize to [Sigur Rós], [( )] and [08.flac] has a
    song whose [relativePath] is exactly [Sigur Rós/( )/08.flac]. *)
Theorem relative_path_construction (root : string) (w : World) :
  traversal_ok root = true ->
  exists idx w',
    build_index root w = (Ok idx, w') /\
    (forall s, In s (all_songs idx) ->
       exists a b f,
         In (a, b) (album_dirs root) /\
         In f (listing (album_path root (a, b))) /\
         is_audio f = true /\
         relativePath s = slash_joined (nfc a) (nfc b) (nfc f)) /\
    (forall a b f,
       In (a, b) (album_dirs root) ->
       In f (listing (album_path root (a, b))) ->
       is_audio f = true ->
       nfc a = "Sigur Rós" -> nfc b = "( )" -> nfc f = "08.flac" ->
       exists s, In s (all_songs idx) /\
                 relativePath s = "Sigur Rós/( )/08.flac").
Proof.
  intros Hok.
  destruct (build_index_songs root w Hok) as (idx & w' & Hrun & Hperm).
  exists idx, w'. split; [exact Hrun | split].
  - intros s Hs.
    apply (Permutation_in _ Hperm) in Hs.
    apply planned_songs_origin in Hs.
    destruct Hs as ([a b] & i & f & Hab & Hf & ->).
    unfold audio_entries in Hf. apply filter_In in Hf. destruct Hf as [Hf Ha].
    exists a, b, f. repeat split; assumption.
  - intros a b f Hab Hf Ha Hna Hnb Hnf.
    destruct (accepted_entry_has_song root idx (drawn w) a b f Hperm Hab Hf Ha)
      as (s & Hs & Hpath & _).
    exists s. split; [exact Hs|].
    rewrite Hpath, Hna, Hnb, Hnf. reflexivity.
Qed.

(** C9.  Whether an entry of an album directory is a regular file is never
    looked at: after a successful traversal every entry of a visited album
    directory that passes the extension test and is itself a directory
    has a song; in particular an entry [demo.mp3] that is a directory is
    emitted as a song, titled by [splitext] like any other. *)
Theorem directory_entries_become_songs (root : string) (w : World) :
  lower_agrees_on_extensions ->
  traversal_ok root = true ->
  exists idx w',
    build_index root w = (Ok idx, w') /\
    (forall a b f,
       In (a, b) (album_dirs root) ->
       In f (listing (album_path root (a, b))) ->
       is_audio f = true ->
       isdir os (OsPath.join (album_path root (a, b)) f) = true ->
       exists s, In s (all_songs idx) /\
                 relativePath s = slash_joined (nfc a) (nfc b) (nfc f)) /\
    (forall a b,
       In (a, b) (album_dirs root) ->
       In "demo.mp3" (listing (album_path root (a, b))) ->
       isdir os (OsPath.join (album_path root (a, b)) "demo.mp3") = true ->
       exists s, In s (all_songs idx) /\
                 relativePath s = slash_joined (nfc a) (nfc b) (nfc "demo.mp3") /\
                 title s = fst (OsPath.splitext (nfc "demo.mp3"))).
Proof.
  intros Hl Hok.
  destruct (build_index_songs root w Hok) as (idx & w' & Hrun & Hperm).
  exists idx, w'. split; [exact Hrun | split].
  - intros a b f Hab Hf Ha _.
    destruct (accepted_entry_has_song root idx (drawn w) a b f Hperm Hab Hf Ha)
      as (s & Hs & Hpath & _).
    now exists s.
  - intros a b Hab Hf _.
    assert (Ha : is_audio "demo.mp3" = true) by now rewrite is_audio_ascii.
    destruct (accepted_entry_has_song root idx (drawn w) a b _ Hperm Hab Hf Ha)
      as (s & Hs & Hpath & Htitle & _).
    now exists s.
Qed.

(** C10.  The leading-dot test is applied to artist and album directory
    names only: after a successful traversal every entry of a visited
    album directory that passes the extension test has a song even when
    its name starts with a dot; in particular [._track.mp3] is included. *)
Theorem dot_entries_become_songs (root : string) (w : World) :
  lower_agrees_on_extensions ->
  traversal_ok root = true ->
  exists idx w',
    build_index root w = (Ok idx, w') /\
    (forall a b f,
       In (a, b) (album_dirs root) ->
       In f (listing (album_path root (a, b))) ->
       Str.startswith f "." = true ->
       is_audio f = true ->
       exists s, In s (all_songs idx) /\
                 relativePath s = slash_joined (nfc a) (nfc b) (nfc f)) /\
    (forall a b,
       In (a, b) (album_dirs root) ->
       In "._track.mp3" (listing (album_path root (a, b))) ->
       exists s, In s (all_songs idx) /\
                 relativePath s
                 = slash_joined (nfc a) (nfc b) (nfc "._track.mp3")).
Proof.
  intros Hl Hok.
  destruct (build_index_songs root w Hok) as (idx & w' & Hrun & Hperm).
  exists idx, w'. split; [exact Hrun | split].
  - intros a b f Hab Hf _ Ha.
    destruct (accepted_entry_has_song root idx (drawn w) a b f Hperm Hab Hf Ha)
      as (s & Hs & Hpath & _).
    now exists s.
  - intros a b Hab Hf.
    assert (Ha : is_audio "._track.mp3" = true)
      by now rewrite is_audio_ascii.
    destruct (accepted_entry_has_song root idx (drawn w) a b _ Hperm Hab Hf Ha)
      as (s & Hs & Hpath & _).
    now exists s.
Qed.

(* ===================================================================== *)
(** ** Identifiers *)
(* ===================================================================== *)

Section UuidFacts.
Import Uuid.
Local Open Scope Z_scope.

(** Bits of a small constant shifted left vanish above its width. *)
Lemma shifted_constant_high c k i :
  0 <= c -> 0 <= k -> Z.log2 c < i - k -> Z.testbit (Z.shiftl c k) i = false.
Proof.
  intros Hc Hk Hi. pose proof (Z.log2_nonneg c) as Hlog.
  rewrite Z.shiftl_spec by lia.
  apply Z.bits_above_log2; assumption.
Qed.

Lemma uuid_int_range b : 0 <= uuid_int b < 2 ^ 128.
Proof.
  assert (H : uuid_int b mod 2 ^ 128 = uuid_int b).
  { apply Z.bits_inj'. intros i Hi.
    rewrite Z.testbit_mod_pow2 by lia.
    destruct (Z.ltb_spec i 128) as [Hlt|Hge]; [reflexivity|].
    simpl. symmetry. unfold uuid_int.
    rewrite Z.lor_spec, Z.land_spec, Z.lor_spec, Z.land_spec.
    rewrite Z.testbit_mod_pow2 by lia.
    destruct (Z.ltb_spec i 128) as [Hlt|_]; [lia|].
    rewrite (shifted_constant_high 0x8000 48 i);
      [| lia | lia | change (Z.log2 0x8000) with 15; lia].
    rewrite (shifted_constant_high 4 76 i);
      [| lia | lia | change (Z.log2 4) with 2; lia].
    reflexivity. }
  rewrite <- H. apply Z.mod_pos_bound. lia.
Qed.

Lemma hexdigit_code d :
  0 <= d < 16 ->
  nat_of_ascii (hexdigit d)
  = Z.to_nat (if d <? 10 then 48 + d else 87 + d).
Proof.
  intros Hd. unfold hexdigit.
  destruct (Z.ltb_spec d 10); apply nat_ascii_embedding; lia.
Qed.

Lemma hexdigit_inj a b :
  0 <= a < 16 -> 0 <= b < 16 -> hexdigit a = hexdigit b -> a = b.
Proof.
  intros Ha Hb H. apply (f_equal nat_of_ascii) in H.
  rewrite !hexdigit_code in H by assumption.
  destruct (Z.ltb_spec a 10), (Z.ltb_spec b 10); lia.
Qed.

Lemma hexdigit_not_dash d : 0 <= d < 16 -> hexdigit d <> "-"%char.
Proof.
  intros Hd H. apply (f_equal nat_of_ascii) in H.
  rewrite hexdigit_code in H by assumption.
  change (nat_of_ascii "-") with 45%nat in H.
  destruct (Z.ltb_spec d 10); lia.
Qed.

Lemma hexdigits_inj n x y :
  0 <= x < 16 ^ Z.of_nat n -> 0 <= y < 16 ^ Z.of_nat n ->
  hexdigits n x = hexdigits n y -> x = y.
Proof.
  revert x y. induction n as [|n IH]; intros x y Hx Hy H.
  - simpl in Hx, Hy. lia.
  - rewrite Nat2Z.inj_succ, Z.pow_succ_r in Hx, Hy by lia.
    simpl in H. apply app_inj_tail in H. destruct H as [Hhi Hlo].
    apply hexdigit_inj in Hlo; try (apply Z.mod_pos_bound; lia).
    apply IH in Hhi.
    + rewrite (Z.div_mod x 16), (Z.div_mod y 16) by lia. congruence.
    + split; [apply Z.div_pos; lia | apply Z.div_lt_upper_bound; lia].
    + split; [apply Z.div_pos; lia | apply Z.div_lt_upper_bound; lia].
Qed.

Lemma hexdigits_no_dash n x :
  Forall (fun c => c <> "-"%char) (hexdigits n x).
Proof.
  revert x. induction n as [|n IH]; intros x; simpl; [constructor|].
  apply Forall_app. split; [apply IH|].
  constructor; [|constructor].
  apply hexdigit_not_dash. apply Z.mod_pos_bound. lia.
Qed.

Lemma filter_no_dash l :
  Forall (fun c => c <> "-"%char) l -> filter not_dash l = l.
Proof.
  induction 1 as [|c l Hc _ IH]; simpl; [reflexivity|].
  unfold not_dash at 1. destruct (Ascii.eqb_spec c "-"); [contradiction|].
  simpl. now rewrite IH.
Qed.

Lemma Forall_take {A} (P : A -> Prop) n l :
  Forall P l -> Forall P (firstn n l).
Proof.
  intros H. revert n. induction H as [|x l Hx _ IH]; intros [|n]; simpl;
    constructor; auto.
Qed.

Lemma Forall_drop {A} (P : A -> Prop) n l :
  Forall P l -> Forall P (skipn n l).
Proof.
  intros H. revert n. induction H as [|x l Hx Hl IH]; intros [|n]; simpl;
    try constructor; auto.
Qed.

Lemma filter_slice (i n : nat) l :
  Forall (fun c => c <> "-"%char) l ->
  filter not_dash (firstn n (skipn i l)) = firstn n (skipn i l).
Proof.
  intros H. apply filter_no_dash. now apply Forall_take, Forall_drop.
Qed.

(** Dropping the dashes of the printed form gives back the 32 digits. *)
Lemma uuid_str_digits x :
  filter not_dash (list_ascii_of_string (uuid_str x)) = hex32 x.
Proof.
  unfold uuid_str. rewrite list_ascii_of_string_of_list_ascii.
  pose proof (hexdigits_no_dash 32 x) as Hnd. fold (hex32 x) in Hnd.
  set (h := hex32 x) in *.
  repeat (rewrite filter_app; cbn [filter]; try rewrite filter_slice by exact Hnd).
  change (not_dash "-") with false. cbv iota.
  rewrite (filter_no_dash (skipn 20 h)) by now apply Forall_drop.
  cbn [Nat.sub]. change (skipn 0 h) with h.
  assert (E1 : skipn 16 h = (firstn 4 (skipn 16 h) ++ skipn 20 h)%list)
    by (change (skipn 20 h) with (skipn (4 + 16) h);
        rewrite <- (skipn_skipn 4 16 h); symmetry; apply firstn_skipn).
  assert (E2 : skipn 12 h = (firstn 4 (skipn 12 h) ++ skipn 16 h)%list)
    by (change (skipn 16 h) with (skipn (4 + 12) h);
        rewrite <- (skipn_skipn 4 12 h); symmetry; apply firstn_skipn).
  assert (E3 : skipn 8 h = (firstn 4 (skipn 8 h) ++ skipn 12 h)%list)
    by (change (skipn 12 h) with (skipn (4 + 8) h);
        rewrite <- (skipn_skipn 4 8 h); symmetry; apply firstn_skipn).
  rewrite <- E1, <- E2, <- E3. apply firstn_skipn.
Qed.

Lemma uuid_str_inj x y :
  0 <= x < 2 ^ 128 -> 0 <= y < 2 ^ 128 -> uuid_str x = uuid_str y -> x = y.
Proof.
  intros Hx Hy H.
  apply (f_equal (fun s => filter not_dash (list_ascii_of_string s))) in H.
  rewrite !uuid_str_digits in H.
  apply (hexdigits_inj 32); [exact Hx | exact Hy | exact H].
Qed.

(** Two identifiers are equal exactly when the two draws give the same
    UUID integer, that is, when the draws agree (modulo 2^128) on the 122
    bits that [uuid4] keeps. *)
Lemma uuid_of_draw_inj b1 b2 :
  uuid_str (uuid_int b1) = uuid_str (uuid_int b2) <-> uuid_int b1 = uuid_int b2.
Proof.
  split; [|congruence].
  apply uuid_str_inj; apply uuid_int_range.
Qed.

End UuidFacts.

Lemma new_songs_ids i a b fs :
  map id (new_songs i a b fs) = map draw_id (seq i (length fs)).
Proof.
  revert i. induction fs as [|f fs IH]; intros i; simpl; [reflexivity|].
  now rewrite IH.
Qed.

(** The identifiers of the planned songs are those of consecutive draws. *)
Lemma planned_songs_ids root n dirs :
  map id (planned_songs root n dirs)
  = map draw_id (seq n (length (planned_songs root n dirs))).
Proof.
  revert n. induction dirs as [|ab dirs IH]; intros n; simpl; [reflexivity|].
  rewrite map_app, length_app, seq_app, map_app, IH.
  unfold songs_of_dir. rewrite new_songs_ids, new_songs_length. reflexivity.
Qed.

Lemma draw_ids_distinct l :
  NoDup (map draw_id l) <-> NoDup (map draw_uuid l).
Proof.
  unfold draw_id.
  rewrite <- (map_map draw_uuid Uuid.uuid_str). split.
  - apply NoDup_map_inv.
  - apply NoDup_map_NoDup_ForallPairs. intros x y Hx Hy Heq.
    apply in_map_iff in Hx. destruct Hx as (i & <- & _).
    apply in_map_iff in Hy. destruct Hy as (j & <- & _).
    now apply uuid_of_draw_inj.
Qed.

(** C6, as the code has it.  A successful traversal makes one draw of
    sixteen random bytes per song, and the identifiers of the index are
    pairwise distinct exactly when the UUID integers of those draws are:
    when the draws differ pairwise in some bit other than the six
    version and variant bits.  Nothing compares identifiers, so equal
    draws give equal identifiers. *)
Theorem ids_distinct_iff_draws_distinct (root : string) (w : World) :
  traversal_ok root = true ->
  exists idx w',
    build_index root w = (Ok idx, w') /\
    drawn w' = drawn w + length (all_songs idx) /\
    (NoDup (map id (all_songs idx)) <->
     NoDup (map draw_uuid (seq (drawn w) (length (all_songs idx))))).
Proof.
  intros Hok.
  destruct (build_index_songs root w Hok)
    as (idx & w' & Hrun & Hperm).
  exists idx, w'. split; [exact Hrun|].
  pose proof (Permutation_length Hperm) as Hlen.
  split.
  - rewrite build_index_ok in Hrun by exact Hok.
    injection Hrun as _ <-. cbn [drawn].
    unfold index_state. rewrite visit_all_draws. cbn [snd]. now rewrite Hlen.
  - rewrite <- draw_ids_distinct, Hlen, <- planned_songs_ids.
    split; apply Permutation_NoDup; apply Permutation_map;
      [exact Hperm | symmetry; exact Hperm].
Qed.

(* ===================================================================== *)
(** ** Albums *)
(* ===================================================================== *)

Section Albums.

Variable root : string.

Lemma with_songs_nil alb : with_songs alb [] = alb.
Proof. destruct alb. unfold with_songs. simpl. now rewrite app_nil_r. Qed.

Lemma get_ensure_same k v d :
  Dict.get k (DictOps.ensure k v d)
  = match Dict.get k d with Some alb => Some alb | None => Some v end.
Proof.
  unfold DictOps.ensure, Dict.mem.
  destruct (Dict.get k d) eqn:Hg; [exact Hg|].
  apply dict_get_set_same.
Qed.

Lemma get_ensure_other k k' v d :
  k <> k' -> Dict.get k (DictOps.ensure k' v d) = Dict.get k d.
Proof.
  intros Hne. unfold DictOps.ensure. destruct (Dict.mem k' d); [reflexivity|].
  now apply dict_get_set_other.
Qed.

Lemma get_extend_same k ss d :
  Dict.get k (DictOps.extend k ss d)
  = match Dict.get k d with
    | Some alb => Some (with_songs alb ss)
    | None => None
    end.
Proof.
  unfold DictOps.extend. destruct (Dict.get k d) eqn:Hg; [|exact Hg].
  apply dict_get_set_same.
Qed.

Lemma get_extend_other k k' ss d :
  k <> k' -> Dict.get k (DictOps.extend k' ss d) = Dict.get k d.
Proof.
  intros Hne. unfold DictOps.extend. destruct (Dict.get k' d); [|reflexivity].
  now apply dict_get_set_other.
Qed.

(** What a traversal leaves under a key: the album that was there, or the
    one made by the key's first directory, with the songs of all the
    directories that have this key, in traversal order. *)
Lemma visit_all_get dirs d n k :
  Dict.get k (fst (visit_all root dirs (d, n)))
  = match Dict.get k d with
    | Some alb => Some (with_songs alb (songs_under root k n dirs))
    | None =>
        match creator k dirs with
        | Some ab =>
            Some (mkAlbum (nfc (snd ab)) (nfc (fst ab)) (songs_under root k n dirs))
        | None => None
        end
    end.
Proof.
  revert d n. induction dirs as [|ab dirs IH]; intros d n.
  - simpl. destruct (Dict.get k d); [now rewrite with_songs_nil | reflexivity].
  - rewrite visit_all_cons. unfold visit at 1. cbn [fst snd]. rewrite IH.
    cbn [songs_under creator find].
    destruct (String.eqb_spec (key_of_dir ab) k) as [Heq|Hne].
    + rewrite Heq, get_extend_same, get_ensure_same.
      destruct (Dict.get k d) as [alb|].
      * unfold with_songs. simpl. now rewrite app_assoc.
      * reflexivity.
    + rewrite get_extend_other, get_ensure_other by congruence.
      reflexivity.
Qed.

Lemma set_In k v k' v' d :
  In (k', v') (Dict.set k v d) -> (k' = k /\ v' = v) \/ In (k', v') d.
Proof.
  induction d as [|[k2 v2] d IH]; simpl.
  - intros [[= <- <-] | []]. now left.
  - destruct (String.eqb_spec k k2) as [->|Hne]; simpl.
    + intros [[= <- <-] | Hin]; auto.
    + intros [Heq | Hin]; auto. destruct (IH Hin); auto.
Qed.

Lemma keys_set k v d :
  Dict.keys (Dict.set k v d)
  = if Dict.mem k d then Dict.keys d else (Dict.keys d ++ [k])%list.
Proof.
  unfold Dict.mem. destruct (Dict.get k d) eqn:Hg.
  - apply dict_keys_set_present. intros. 
    destruct (in_dec string_dec k (Dict.keys d)) as [Hin|Hnot]; [exact Hin|].
    apply dict_get_None_keys in Hnot. congruence.
  - rewrite dict_set_absent by now apply dict_get_None_keys.
    rewrite keys_app. reflexivity.
Qed.

Lemma NoDup_snoc {A} (l : list A) x : NoDup l -> ~ In x l -> NoDup (l ++ [x]).
Proof.
  intros Hl Hx. induction Hl as [|y l Hy _ IH]; simpl.
  - constructor; [intros [] | constructor].
  - constructor.
    + rewrite in_app_iff. intros [H | [H | []]]; [contradiction|].
      subst. apply Hx. now left.
    + apply IH. intros H. apply Hx. now right.
Qed.

Lemma set_keeps_nodup k v d :
  NoDup (Dict.keys d) -> NoDup (Dict.keys (Dict.set k v d)).
Proof.
  intros Hnd. rewrite keys_set. unfold Dict.mem.
  destruct (Dict.get k d) eqn:Hg; [exact Hnd|].
  apply NoDup_snoc; [exact Hnd | now apply dict_get_None_keys].
Qed.

Lemma visit_keeps_ok d n ab :
  dict_ok d -> dict_ok (fst (visit root (d, n) ab)).
Proof.
  intros [Hnd Hcons]. unfold visit. cbn [fst snd].
  set (k := key_of_dir ab).
  set (e := DictOps.ensure k (mkAlbum (nfc (snd ab)) (nfc (fst ab)) []) d).
  assert (He : dict_ok e).
  { unfold e, DictOps.ensure. destruct (Dict.mem k d); [now split|].
    split; [now apply set_keeps_nodup|].
    intros k' v' Hin. apply set_In in Hin.
    destruct Hin as [[-> ->] | Hin]; [reflexivity | now apply Hcons]. }
  destruct He as [Hnd' Hcons']. unfold DictOps.extend.
  destruct (Dict.get k e) as [alb|] eqn:Hg; [|now split].
  split; [now apply set_keeps_nodup|].
  intros k' v' Hin. apply set_In in Hin.
  destruct Hin as [[-> ->] | Hin]; [|now apply Hcons'].
  simpl. apply Hcons'. now apply dict_get_In.
Qed.

Lemma visit_all_keeps_ok dirs d n :
  dict_ok d -> dict_ok (fst (visit_all root dirs (d, n))).
Proof.
  revert d n. induction dirs as [|ab dirs IH]; intros d n Hd; [exact Hd|].
  rewrite visit_all_cons.
  destruct (visit root (d, n) ab) as [d1 n1] eqn:Hv.
  apply IH. change d1 with (fst (d1, n1)). rewrite <- Hv.
  now apply visit_keeps_ok.
Qed.

(** An album found under a key is one record of the album list, and the
    others have other keys. *)
Lemma get_splits_values k alb d :
  dict_ok d -> Dict.get k d = Some alb ->
  exists before after,
    Dict.values d = (before ++ alb :: after)%list /\
    forall r, In r (before ++ after)%list ->
              make_album_key (artist r) (name r) <> k.
Proof.
  intros [Hnd Hcons] Hg.
  destruct (@set_split k alb alb d Hg) as (d1 & d2 & Hd & _ & _).
  exists (Dict.values d1), (Dict.values d2). split.
  - rewrite Hd, values_app. reflexivity.
  - intros r Hr Hk.
    assert (Hin : exists k', In (k', r) (d1 ++ d2)%list).
    { rewrite <- values_app in Hr. unfold Dict.values in Hr.
      apply in_map_iff in Hr. destruct Hr as ([k' r'] & Heq & Hin).
      simpl in Heq. subst r'. now exists k'. }
    destruct Hin as [k' Hin].
    assert (Hk' : k' = k).
    { rewrite <- Hk. apply Hcons. rewrite Hd.
      apply in_app_iff in Hin. apply in_app_iff.
      destruct Hin; [now left | right; now right]. }
    subst k'. rewrite Hd, keys_app in Hnd. simpl in Hnd.
    apply NoDup_remove_2 in Hnd. apply Hnd.
    rewrite <- keys_app. unfold Dict.keys.
    change k with (fst (k, r)). now apply in_map.
Qed.

Lemma creator_skip k l1 ab l2 :
  (forall ab', In ab' l1 -> key_of_dir ab' <> k) ->
  key_of_dir ab = k ->
  creator k (l1 ++ ab :: l2) = Some ab.
Proof.
  intros Hl Hk. induction l1 as [|x l1 IH]; simpl.
  - rewrite Hk, String.eqb_refl. reflexivity.
  - destruct (String.eqb_spec (key_of_dir x) k) as [Heq|_].
    + exfalso. apply (Hl x); [now left | exact Heq].
    + apply IH. intros ab' Hin. apply Hl. now right.
Qed.

Lemma songs_under_complete k n dirs ab f :
  In ab dirs -> key_of_dir ab = k ->
  In f (audio_entries root ab) ->
  exists i, In (new_song i (nfc (fst ab)) (nfc (snd ab)) f)
               (songs_under root k n dirs).
Proof.
  revert n. induction dirs as [|ab' dirs IH]; intros n; simpl; [tauto|].
  intros [-> | Hin] Hk Hf.
  - rewrite Hk, String.eqb_refl.
    apply In_nth_error in Hf. destruct Hf as [j Hj].
    exists (n + j). apply in_app_iff. left.
    unfold songs_of_dir. apply (proj2 (in_new_songs _ _ _ _ _)).
    now exists j, f.
  - destruct (IH (n + length (audio_entries root ab')) Hin Hk Hf)
      as [i Hi].
    exists i. apply in_app_iff. now right.
Qed.

Lemma songs_under_paths k n dirs :
  map relativePath (songs_under root k n dirs)
  = flat_map (paths_of_dir root) (filter (has_key k) dirs).
Proof.
  revert n. induction dirs as [|ab dirs IH]; intros n; simpl; [reflexivity|].
  rewrite map_app, IH. unfold has_key at 2.
  destruct (String.eqb (key_of_dir ab) k); simpl; [|reflexivity].
  f_equal. unfold songs_of_dir. apply new_songs_paths.
Qed.

Lemma filter_none {A} (p : A -> bool) l :
  (forall x, In x l -> p x = false) -> filter p l = [].
Proof.
  induction l as [|x l IH]; intros H; simpl; [reflexivity|].
  rewrite (H x) by now left. apply IH. intros y Hy. apply H. now right.
Qed.

Lemma creator_exists k dirs ab :
  In ab dirs -> key_of_dir ab = k ->
  exists ab0, creator k dirs = Some ab0 /\ key_of_dir ab0 = k.
Proof.
  intros Hin Hk. unfold creator.
  destruct (find _ dirs) as [ab0|] eqn:Hf.
  - exists ab0. split; [reflexivity|].
    apply find_some in Hf. now apply String.eqb_eq.
  - exfalso. apply (find_none _ _ Hf) in Hin.
    rewrite Hk, String.eqb_refl in Hin. discriminate.
Qed.

(** C2.  Let two album directories met by a successful traversal have
    artist names and album names with the same normal forms (the raw names
    may differ byte for byte).  Then the index has exactly one album
    record under their common key, and every accepted entry of either
    directory has its song in that record's list.  When no other visited
    directory has that key, the record carries the normalized artist and
    album names and its songs are exactly those of the first directory
    followed by those of the second. *)
Theorem album_merge (w : World)
    (l1 l2 l3 : list (string * string)) (a1 b1 a2 b2 : string) :
  traversal_ok root = true ->
  album_dirs root = (l1 ++ (a1, b1) :: l2 ++ (a2, b2) :: l3)%list ->
  nfc a1 = nfc a2 -> nfc b1 = nfc b2 ->
  exists idx w' before r after,
    build_index root w = (Ok idx, w') /\
    idx = (before ++ r :: after)%list /\
    make_album_key (artist r) (name r) = make_album_key (nfc a1) (nfc b1) /\
    (forall r', In r' (before ++ after)%list ->
       make_album_key (artist r') (name r')
       <> make_album_key (nfc a1) (nfc b1)) /\
    (forall f,
       In f (audio_entries root (a1, b1)
             ++ audio_entries root (a2, b2))%list ->
       exists s, In s (songs r) /\
                 relativePath s = slash_joined (nfc a1) (nfc b1) (nfc f)) /\
    ((forall ab, In ab (l1 ++ l2 ++ l3)%list ->
        key_of_dir ab <> key_of_dir (a1, b1)) ->
     artist r = nfc a1 /\ name r = nfc b1 /\
     map relativePath (songs r)
     = map (fun f => slash_joined (nfc a1) (nfc b1) (nfc f))
           (audio_entries root (a1, b1)
            ++ audio_entries root (a2, b2))%list).
Proof.
  intros Hok Hdirs Ha Hb.
  set (k := make_album_key (nfc a1) (nfc b1)).
  assert (Hk1 : key_of_dir (a1, b1) = k) by reflexivity.
  assert (Hk2 : key_of_dir (a2, b2) = k).
  { unfold key_of_dir, k. simpl. now rewrite <- Ha, <- Hb. }
  assert (Hin1 : In (a1, b1) (album_dirs root)).
  { rewrite Hdirs. apply in_app_iff. right. now left. }
  assert (Hin2 : In (a2, b2) (album_dirs root)).
  { rewrite Hdirs. apply in_app_iff. right. right.
    apply in_app_iff. right. now left. }
  set (n := drawn w).
  set (d := fst (index_state root n)).
  assert (Hd : dict_ok d).
  { apply visit_all_keeps_ok. split; [constructor | intros ? ? []]. }
  destruct (creator_exists k _ _ Hin1 Hk1) as (ab0 & Hc & Hk0).
  assert (Hg : Dict.get k d
               = Some (mkAlbum (nfc (snd ab0)) (nfc (fst ab0))
                         (songs_under root k n (album_dirs root)))).
  { unfold d, index_state. rewrite visit_all_get. simpl Dict.get.
    now rewrite Hc. }
  destruct (get_splits_values k _ d Hd Hg) as (before & after & Hvals & Hothers).
  eexists _, _, before, _, after.
  split; [apply build_index_ok; exact Hok|].
  split; [exact Hvals|]. cbn [artist name songs].
  split; [exact Hk0|]. split; [exact Hothers|]. split.
  - intros f Hf. apply in_app_iff in Hf. destruct Hf as [Hf | Hf].
    + destruct (songs_under_complete k n _ _ f Hin1 Hk1 Hf) as [i Hi].
      eexists. split; [exact Hi | reflexivity].
    + destruct (songs_under_complete k n _ _ f Hin2 Hk2 Hf) as [i Hi].
      eexists. split; [exact Hi|]. simpl. now rewrite Ha, Hb.
  - intros Hexcl.
    assert (Hnone : forall l, (forall ab, In ab l -> In ab (l1 ++ l2 ++ l3)%list) ->
                              filter (has_key k) l = []).
    { intros l Hl. apply filter_none. intros ab Hab.
      unfold has_key. apply String.eqb_neq. apply Hexcl. now apply Hl. }
    assert (Hab0 : ab0 = (a1, b1)).
    { rewrite Hdirs in Hc. rewrite creator_skip in Hc; [congruence | | exact Hk1].
      intros ab Hab. apply Hexcl. apply in_app_iff. now left. }
    subst ab0. cbn [fst snd]. repeat split.
    rewrite songs_under_paths, Hdirs.
    rewrite filter_app. cbn [filter]. rewrite filter_app. cbn [filter].
    unfold has_key at 2 4. rewrite Hk1, Hk2, String.eqb_refl.
    rewrite (Hnone l1), (Hnone l2), (Hnone l3).
    + cbn [app flat_map]. rewrite app_nil_r, map_app.
      unfold paths_of_dir. cbn [fst snd]. now rewrite Ha, Hb.
    + intros ab Hab. rewrite !in_app_iff. auto.
    + intros ab Hab. rewrite !in_app_iff. auto.
    + intros ab Hab. rewrite !in_app_iff. auto.
Qed.

(** C1, what the code does.  Album records are told apart by the key
    string alone: whenever two album directories met by a successful
    traversal have the same key, the songs of both are in one and the same
    record, each song carrying the normalized names of its own directory
    pair.  The key joins the two names with a dash, so pairs such as
    ([a-b], [c]) and ([a], [b-c]) have the same key without being
    equal. *)
Theorem same_key_shares_record (w : World) (a1 b1 f1 a2 b2 f2 : string) :
  traversal_ok root = true ->
  In (a1, b1) (album_dirs root) ->
  In (a2, b2) (album_dirs root) ->
  make_album_key (nfc a1) (nfc b1) = make_album_key (nfc a2) (nfc b2) ->
  In f1 (audio_entries root (a1, b1)) ->
  In f2 (audio_entries root (a2, b2)) ->
  exists idx w' r s1 s2,
    build_index root w = (Ok idx, w') /\
    In r idx /\ In s1 (songs r) /\ In s2 (songs r) /\
    (song_artist s1, song_album s1) = (nfc a1, nfc b1) /\
    (song_artist s2, song_album s2) = (nfc a2, nfc b2) /\
    relativePath s1 = slash_joined (nfc a1) (nfc b1) (nfc f1) /\
    relativePath s2 = slash_joined (nfc a2) (nfc b2) (nfc f2).
Proof.
  intros Hok Hin1 Hin2 Hkey Hf1 Hf2.
  set (k := make_album_key (nfc a1) (nfc b1)).
  assert (Hk1 : key_of_dir (a1, b1) = k) by reflexivity.
  assert (Hk2 : key_of_dir (a2, b2) = k) by (symmetry; exact Hkey).
  set (n := drawn w).
  set (d := fst (index_state root n)).
  assert (Hd : dict_ok d).
  { apply visit_all_keeps_ok. split; [constructor | intros ? ? []]. }
  destruct (creator_exists k _ _ Hin1 Hk1) as (ab0 & Hc & Hk0).
  assert (Hg : Dict.get k d
               = Some (mkAlbum (nfc (snd ab0)) (nfc (fst ab0))
                         (songs_under root k n (album_dirs root)))).
  { unfold d, index_state. rewrite visit_all_get. simpl Dict.get.
    now rewrite Hc. }
  destruct (get_splits_values k _ d Hd Hg) as (before & after & Hvals & _).
  destruct (songs_under_complete k n _ _ f1 Hin1 Hk1 Hf1) as [i1 Hi1].
  destruct (songs_under_complete k n _ _ f2 Hin2 Hk2 Hf2) as [i2 Hi2].
  eexists _, _, _, _, _.
  split; [apply build_index_ok; exact Hok|].
  split; [fold n; fold d; rewrite Hvals; apply in_app_iff; right; now left|].
  cbn [songs]. split; [exact Hi1|]. split; [exact Hi2|].
  repeat split.
Qed.

(* --------------------------------------------------------------------- *)
(** *** The album list as a whole *)

Lemma unique_key_get k v d :
  NoDup (Dict.keys d) -> In (k, v) d -> Dict.get k d = Some v.
Proof.
  induction d as [|[k' v'] d IH]; simpl; [tauto|].
  intros Hnd [Heq | Hin].
  - injection Heq as -> ->. now rewrite String.eqb_refl.
  - inversion Hnd as [|? ? Hnotin Hnd']; subst.
    destruct (String.eqb_spec k k') as [->|Hne]; [|now apply IH].
    exfalso. apply Hnotin. change k' with (fst (k', v)).
    now apply in_map.
Qed.

Lemma values_In r d : In r (Dict.values d) -> exists k, In (k, r) d.
Proof.
  unfold Dict.values. intros Hr. apply in_map_iff in Hr.
  destruct Hr as ([k r'] & Heq & Hin). simpl in Heq. subst r'. now exists k.
Qed.

Lemma find_first {A} (p : A -> bool) l x :
  find p l = Some x ->
  exists l1 l2,
    l = (l1 ++ x :: l2)%list /\ p x = true /\ forall y, In y l1 -> p y = false.
Proof.
  induction l as [|y l IH]; simpl; [discriminate|].
  destruct (p y) eqn:Hy.
  - intros [= ->]. exists [], l. repeat split; [exact Hy | intros ? []].
  - intros Hf. destruct (IH Hf) as (l1 & l2 & -> & Hx & Hl1).
    exists (y :: l1), l2. repeat split; [exact Hx|].
    intros z [<- | Hz]; [exact Hy | now apply Hl1].
Qed.

Lemma songs_under_origin k n dirs s :
  In s (songs_under root k n dirs) ->
  exists ab i f,
    In ab dirs /\ key_of_dir ab = k /\ In f (audio_entries root ab) /\
    s = new_song i (nfc (fst ab)) (nfc (snd ab)) f.
Proof.
  revert n. induction dirs as [|ab dirs IH]; intros n; simpl; [tauto|].
  rewrite in_app_iff. intros [Hs | Hs].
  - destruct (String.eqb_spec (key_of_dir ab) k) as [Hk|_]; [|destruct Hs].
    unfold songs_of_dir in Hs. apply in_new_songs in Hs.
    destruct Hs as (j & f & Hj & ->).
    exists ab, (n + j), f. repeat split; auto.
    now apply nth_error_In in Hj.
  - destruct (IH _ Hs) as (ab' & i & f & Hab & Hk & Hf & ->).
    exists ab', i, f. auto.
Qed.

Lemma index_dict_ok n : dict_ok (fst (index_state root n)).
Proof.
  apply visit_all_keeps_ok. split; [constructor | intros ? ? []].
Qed.

(** Every record of the album list was created by the first directory
    that has its key, and holds the songs of all directories with that
    key. *)
Lemma record_shape n r :
  In r (Dict.values (fst (index_state root n))) ->
  exists ab0,
    creator (record_key r) (album_dirs root) = Some ab0 /\
    key_of_dir ab0 = record_key r /\
    artist r = nfc (fst ab0) /\ name r = nfc (snd ab0) /\
    songs r = songs_under root (record_key r) n (album_dirs root).
Proof.
  intros Hr. destruct (values_In _ _ Hr) as [k Hin].
  pose proof (index_dict_ok n) as [Hnd Hcons].
  assert (Hk : k = record_key r) by now apply Hcons.
  apply (unique_key_get _ _ _ Hnd) in Hin.
  unfold index_state in Hin. rewrite visit_all_get in Hin. simpl Dict.get in Hin.
  destruct (creator k (album_dirs root)) as [ab0|] eqn:Hc; [|discriminate].
  injection Hin as <-. cbn [artist name songs]. unfold record_key in *.
  cbn [artist name] in *.
  assert (Hk0 : key_of_dir ab0 = k).
  { unfold creator in Hc. apply find_some in Hc. now apply String.eqb_eq. }
  exists ab0. rewrite <- Hk. repeat split; auto.
Qed.

Lemma record_key_keys d :
  keys_consistent d -> map record_key (Dict.values d) = Dict.keys d.
Proof.
  induction d as [|[k r] d IH]; intros Hc; simpl; [reflexivity|].
  f_equal.
  - symmetry. apply Hc. now left.
  - apply IH. intros k' r' Hin. apply Hc. now right.
Qed.

Lemma mem_existsb k d : Dict.mem k d = existsb (String.eqb k) (Dict.keys d).
Proof.
  unfold Dict.mem. induction d as [|[k' v'] d IH]; simpl; [reflexivity|].
  destruct (String.eqb k k'); [reflexivity | exact IH].
Qed.

Lemma keys_visit d n ab :
  Dict.keys (fst (visit root (d, n) ab))
  = if Dict.mem (key_of_dir ab) d then Dict.keys d
    else (Dict.keys d ++ [key_of_dir ab])%list.
Proof.
  unfold visit. cbn [fst snd]. set (k := key_of_dir ab).
  set (e := DictOps.ensure k _ d).
  assert (He : Dict.keys e
               = if Dict.mem k d then Dict.keys d else (Dict.keys d ++ [k])%list).
  { unfold e, DictOps.ensure. destruct (Dict.mem k d) eqn:Hm; [reflexivity|].
    now rewrite keys_set, Hm. }
  rewrite <- He. unfold DictOps.extend.
  destruct (Dict.get k e) eqn:Hg; [|reflexivity].
  rewrite keys_set. unfold Dict.mem. now rewrite Hg.
Qed.

Lemma filter_filter {A} (p q : A -> bool) l :
  filter p (filter q l) = filter (fun x => q x && p x) l.
Proof.
  induction l as [|x l IH]; simpl; [reflexivity|].
  destruct (q x); simpl; [destruct (p x)|]; now rewrite IH.
Qed.

Lemma filter_all {A} (l : list A) : filter (fun _ => true) l = l.
Proof. induction l; simpl; congruence. Qed.

(** The keys of the dictionary after a traversal: those it had, then the
    new keys in the order of their first directory. *)
Lemma keys_visit_all dirs d n :
  Dict.keys (fst (visit_all root dirs (d, n)))
  = (Dict.keys d
     ++ filter (fresh (Dict.keys d))
          (first_occurrences (map key_of_dir dirs)))%list.
Proof.
  revert d n. induction dirs as [|ab dirs IH]; intros d n.
  - simpl. now rewrite app_nil_r.
  - rewrite visit_all_cons.
    destruct (visit root (d, n) ab) as [d1 n1] eqn:Hv.
    rewrite IH. pose proof (keys_visit d n ab) as Hk. rewrite Hv in Hk.
    cbn [fst] in Hk. rewrite Hk. cbn [map first_occurrences filter].
    set (k := key_of_dir ab). unfold fresh at 2. rewrite <- mem_existsb.
    destruct (Dict.mem k d) eqn:Hm; cbn [negb].
    + f_equal. rewrite filter_filter. apply filter_ext. intros x.
      destruct (String.eqb_spec x k) as [->|Hne]; [|reflexivity].
      simpl. unfold fresh. now rewrite <- mem_existsb, Hm.
    + rewrite <- app_assoc. cbn [app]. do 2 f_equal.
      rewrite filter_filter. apply filter_ext. intros x.
      unfold fresh. rewrite existsb_app. simpl. rewrite orb_false_r.
      now rewrite negb_orb, andb_comm.
Qed.

Lemma index_keys n :
  map record_key (Dict.values (fst (index_state root n)))
  = first_occurrences (map key_of_dir (album_dirs root)).
Proof.
  rewrite record_key_keys by apply index_dict_ok.
  unfold index_state. rewrite keys_visit_all. simpl.
  apply filter_all.
Qed.

(** X1.  After a successful traversal the album list follows the order in
    which the album keys were first met: the keys of its records are the
    keys of the visited directory pairs in traversal order, each key kept
    at its first occurrence only. *)
Theorem albums_in_first_discovery_order (w : World) :
  traversal_ok root = true ->
  exists idx w',
    build_index root w = (Ok idx, w') /\
    map record_key idx
    = first_occurrences (map key_of_dir (album_dirs root)).
Proof.
  intros Hok. eexists _, _. split; [apply build_index_ok; exact Hok|].
  apply index_keys.
Qed.

(** X2.  After a successful traversal no two records of the album list
    have the same key, hence no two have both the same artist and the same
    name. *)
Theorem album_records_unique (w : World) :
  traversal_ok root = true ->
  exists idx w',
    build_index root w = (Ok idx, w') /\
    NoDup (map record_key idx) /\
    NoDup (map (fun r => (artist r, name r)) idx).
Proof.
  intros Hok. eexists _, _. split; [apply build_index_ok; exact Hok|].
  assert (Hnd : NoDup (map record_key
                         (Dict.values (fst (index_state root (drawn w)))))).
  { rewrite record_key_keys by apply index_dict_ok. apply index_dict_ok. }
  split; [exact Hnd|].
  unfold record_key in Hnd.
  rewrite <- (map_map (fun r => (artist r, name r))
                (fun p => make_album_key (fst p) (snd p))) in Hnd.
  now apply NoDup_map_inv in Hnd.
Qed.

(** X3.  After a successful traversal every visited album directory has
    its record in the album list, also when it holds no audio file: the
    songs list of a record is empty when none of the directories with its
    key has an accepted entry. *)
Theorem every_album_directory_has_record (w : World) :
  traversal_ok root = true ->
  exists idx w',
    build_index root w = (Ok idx, w') /\
    forall a b,
      In (a, b) (album_dirs root) ->
      exists r,
        In r idx /\ record_key r = key_of_dir (a, b) /\
        ((forall ab, In ab (album_dirs root) ->
            key_of_dir ab = key_of_dir (a, b) -> audio_entries root ab = []) ->
         songs r = []).
Proof.
  intros Hok. eexists _, _. split; [apply build_index_ok; exact Hok|].
  intros a b Hab.
  set (n := drawn w). set (k := key_of_dir (a, b)).
  destruct (creator_exists k _ _ Hab eq_refl) as (ab0 & Hc & Hk0).
  assert (Hg : Dict.get k (fst (index_state root n))
               = Some (mkAlbum (nfc (snd ab0)) (nfc (fst ab0))
                         (songs_under root k n (album_dirs root)))).
  { unfold index_state. rewrite visit_all_get. simpl Dict.get. now rewrite Hc. }
  eexists. split; [|split].
  - unfold Dict.values. apply in_map_iff.
    eexists (k, _). split; [reflexivity|]. apply dict_get_In. exact Hg.
  - exact Hk0.
  - cbn [songs]. intros Hempty.
    destruct (songs_under root k n (album_dirs root)) as [|s ss] eqn:Hs;
      [reflexivity|].
    exfalso.
    assert (Hin : In s (songs_under root k n (album_dirs root)))
      by (rewrite Hs; now left).
    destruct (songs_under_origin _ _ _ _ Hin) as (ab & i & f & Hin' & Hk & Hf & _).
    rewrite (Hempty ab Hin' Hk) in Hf. destruct Hf.
Qed.

(** X4.  After a successful traversal the songs of each record are, in
    that order, the accepted entries of the directories that have the
    record's key, directory after directory in traversal order and entry
    after entry in listing order. *)
Theorem album_songs_in_listing_order (w : World) :
  traversal_ok root = true ->
  exists idx w',
    build_index root w = (Ok idx, w') /\
    forall r,
      In r idx ->
      map relativePath (songs r)
      = flat_map (paths_of_dir root)
          (filter (has_key (record_key r)) (album_dirs root)).
Proof.
  intros Hok. eexists _, _. split; [apply build_index_ok; exact Hok|].
  intros r Hr. destruct (record_shape _ _ Hr) as (ab0 & _ & _ & _ & _ & ->).
  apply songs_under_paths.
Qed.

(** X5.  After a successful traversal the artist and name of each record
    are the normalized names of the first visited directory pair that has
    the record's key: a later directory with the same key adds songs and
    leaves the two fields alone. *)
Theorem album_named_by_first_directory (w : World) :
  traversal_ok root = true ->
  exists idx w',
    build_index root w = (Ok idx, w') /\
    forall r,
      In r idx ->
      exists l1 a b l2,
        album_dirs root = (l1 ++ (a, b) :: l2)%list /\
        (forall ab, In ab l1 -> key_of_dir ab <> key_of_dir (a, b)) /\
        artist r = nfc a /\ name r = nfc b.
Proof.
  intros Hok. eexists _, _. split; [apply build_index_ok; exact Hok|].
  intros r Hr.
  destruct (record_shape _ _ Hr) as ([a b] & Hc & Hk & Ha & Hn & _).
  unfold creator in Hc. apply find_first in Hc.
  destruct Hc as (l1 & l2 & Hdirs & _ & Hl1).
  exists l1, a, b, l2. repeat split; try assumption.
  intros ab Hab Heq. specialize (Hl1 ab Hab). cbv beta in Hl1.
  rewrite Heq, Hk, String.eqb_refl in Hl1. discriminate.
Qed.

(** X6.  After a successful traversal every song lies in the record whose
    key is the key of the song's own artist and album fields. *)
Theorem song_key_is_record_key (w : World) :
  traversal_ok root = true ->
  exists idx w',
    build_index root w = (Ok idx, w') /\
    forall r s,
      In r idx -> In s (songs r) ->
      make_album_key (song_artist s) (song_album s) = record_key r.
Proof.
  intros Hok. eexists _, _. split; [apply build_index_ok; exact Hok|].
  intros r s Hr Hs.
  destruct (record_shape _ _ Hr) as (ab0 & _ & _ & _ & _ & Hsongs).
  rewrite Hsongs in Hs.
  destruct (songs_under_origin _ _ _ _ Hs) as (ab & i & f & _ & Hk & _ & ->).
  exact Hk.
Qed.

(** X7.  When no two visited directory pairs with different normalized
    names have the same key string, the artist and album fields of every
    song are those of the record that holds it. *)
Theorem songs_match_album_without_collision (w : World) :
  traversal_ok root = true ->
  no_key_collision root ->
  exists idx w',
    build_index root w = (Ok idx, w') /\
    forall r s,
      In r idx -> In s (songs r) ->
      song_artist s = artist r /\ song_album s = name r.
Proof.
  intros Hok Hnc. eexists _, _. split; [apply build_index_ok; exact Hok|].
  intros r s Hr Hs.
  destruct (record_shape _ _ Hr) as (ab0 & Hc & Hk0 & Ha & Hn & Hsongs).
  rewrite Hsongs in Hs.
  destruct (songs_under_origin _ _ _ _ Hs) as (ab & i & f & Hab & Hk & _ & ->).
  assert (Hab0 : In ab0 (album_dirs root)).
  { unfold creator in Hc. now apply find_some in Hc. }
  destruct (Hnc ab ab0 Hab Hab0) as [H1 H2]; [congruence|].
  unfold new_song. cbn [song_artist song_album]. split; congruence.
Qed.

End Albums.

(* ===================================================================== *)
(** ** A whole run *)
(* ===================================================================== *)

(** X8.  When the music directory is a directory, every listing succeeds
    and the output file can be written, the script writes exactly one
    file, [index.json] inside the music directory, holding the album list
    the traversal built, and prints the starting line and then the line
    that reports the file name and the number of albums. *)
Theorem successful_run_writes_index (music_directory : string) (w : World) :
  isdir os music_directory = true ->
  traversal_ok music_directory = true ->
  open_write os (OsPath.join music_directory "index.json") = WriteOk ->
  exists idx w1,
    build_index music_directory w = (Ok idx, w1) /\
    main music_directory w =
      (Ok tt,
       mkWorld
         (stdout w
          ++ [ starting_line music_directory;
               success_line (OsPath.join music_directory "index.json") idx ])%list
         (files w
          ++ [ (OsPath.join music_directory "index.json", Json idx) ])%list
         (drawn w1)).
Proof.
  intros Hdir Hok Hopen. eexists _, _.
  split; [apply build_index_ok; exact Hok|].
  unfold main. rewrite Hdir. unfold create_music_index, bind.
  rewrite build_index_ok by exact Hok.
  unfold write_index. rewrite Hopen. unfold bind, write_file, print.
  cbn [stdout files drawn]. rewrite <- app_assoc. reflexivity.
Qed.

(** X9.  An I/O error while the output file is opened or written is caught:
    after a successful traversal [create_music_index] still returns
    normally, prints the starting line and then the error line with the
    error's text, and leaves no complete index behind (nothing at all when
    the file could not be opened). *)
Theorem write_failure_is_reported (root output_file msg : string) (w : World) :
  traversal_ok root = true ->
  open_write os output_file = OpenFails msg
  \/ open_write os output_file = DumpFails msg ->
  exists w' written,
    create_music_index root output_file w = (Ok tt, w') /\
    stdout w' = (stdout w ++ [starting_line root; write_error_line msg])%list /\
    files w' = (files w ++ written)%list /\
    (forall p c, In (p, c) written -> c = Truncated) /\
    (open_write os output_file = OpenFails msg -> written = []).
Proof.
  intros Hok Hfail.
  unfold create_music_index, bind. rewrite build_index_ok by exact Hok.
  unfold write_index. destruct Hfail as [Hf | Hf]; rewrite Hf.
  - eexists _, []. unfold print. cbn [stdout files drawn].
    rewrite <- app_assoc, app_nil_r.
    repeat split. intros p c [].
  - eexists _, [(output_file, Truncated)].
    unfold bind, write_file, print. cbn [stdout files drawn].
    rewrite <- app_assoc. repeat split.
    + intros p c [[= _ <-] | []]. reflexivity.
    + discriminate.
Qed.

(** X10.  Whatever the file system, the traversal writes no file and
    prints its starting line and nothing else; it returns an album list
    exactly when every listing it asks for succeeds, and the only errors
    it raises are errors of a directory listing: the dictionary subscript
    of line 57 never fails. *)
Theorem traversal_fails_only_on_listing (root : string) (w : World) :
  files (snd (build_index root w)) = files w /\
  stdout (snd (build_index root w)) = (stdout w ++ [starting_line root])%list /\
  (traversal_ok root = true <-> exists idx, fst (build_index root w) = Ok idx) /\
  (forall e, fst (build_index root w) = Raise e ->
     exists p, In p (listed_dirs root) /\ listdir os p = Raise e).
Proof.
  destruct (traversal_ok root) eqn:Hok.
  - rewrite build_index_ok by exact Hok. cbn [fst snd files stdout].
    repeat split.
    + intros _. eexists. reflexivity.
    + intros e He. discriminate.
  - destruct (build_index_fails root w Hok)
      as (p & e & w' & Hp & He & Hrun & Hout & Hfiles).
    rewrite Hrun. cbn [fst snd]. repeat split; try assumption.
    + discriminate.
    + intros [idx Hidx]. discriminate.
    + intros e' [= <-]. now exists p.
Qed.

(* ===================================================================== *)
(** ** Titles *)
(* ===================================================================== *)

Lemma take_drop n s : Str.take n s ++ Str.drop n s = s.
Proof.
  unfold Str.take. revert s. induction n as [|n IH]; intros [|c s]; simpl;
    try reflexivity.
  now rewrite IH.
Qed.

Lemma rfind_drop c s i :
  Str.rfind c s = Some i -> exists rest, Str.drop i s = String c rest.
Proof.
  revert i. induction s as [|d s IH]; intros i; simpl; [discriminate|].
  destruct (Str.rfind c s) as [j|] eqn:Hr.
  - intros [= <-]. simpl. now apply IH.
  - destruct (Ascii.eqb_spec d c) as [->|_]; [|discriminate].
    intros [= <-]. now exists s.
Qed.

(** [splitext] cuts its argument in two, and the second part is empty or
    starts with a dot. *)
Lemma splitext_parts p :
  fst (OsPath.splitext p) ++ snd (OsPath.splitext p) = p /\
  (snd (OsPath.splitext p) = ""
   \/ Str.startswith (snd (OsPath.splitext p)) "." = true).
Proof.
  unfold OsPath.splitext.
  destruct (Str.rfind "." p) as [dotIndex|] eqn:Hdot.
  - match goal with |- context [if ?c then _ else _] => destruct c end;
      cbn [fst snd].
    + split; [apply take_drop|]. right.
      destruct (rfind_drop _ _ _ Hdot) as [rest ->]. reflexivity.
    + split; [|now left]. clear. induction p; simpl; congruence.
  - cbn [fst snd]. split; [|now left]. clear. induction p; simpl; congruence.
Qed.

Lemma string_app_nil_r (s : string) : s ++ "" = s.
Proof. induction s; simpl; congruence. Qed.

Lemma rfind_app c s t :
  Str.rfind c (s ++ t)
  = match Str.rfind c t with
    | Some i => Some (String.length s + i)
    | None => Str.rfind c s
    end.
Proof.
  induction s as [|d s IH]; simpl.
  - destruct (Str.rfind c t); reflexivity.
  - rewrite IH. destruct (Str.rfind c t); [reflexivity|].
    destruct (Str.rfind c s); reflexivity.
Qed.

Lemma take_app s t : Str.take (String.length s) (s ++ t) = s.
Proof.
  unfold Str.take. induction s as [|c s IH]; simpl.
  - destruct t; reflexivity.
  - now rewrite IH.
Qed.

Lemma drop_app s t : Str.drop (String.length s) (s ++ t) = t.
Proof. induction s as [|c s IH]; simpl; [reflexivity | exact IH]. Qed.

(** [splitext] on a name without slash whose last dot is followed by
    [e]: the part before the dot is split off, unless it consists of dots
    only (or is empty), in which case nothing is split off. *)
Lemma splitext_stem stem e :
  lacks "/" stem -> lacks "/" e -> lacks "." e ->
  OsPath.splitext (stem ++ "." ++ e)
  = if OsPath.some_char_differs "." stem
    then (stem, "." ++ e)
    else (stem ++ "." ++ e, "").
Proof.
  unfold lacks. intros Hs He Hd. unfold OsPath.splitext.
  rewrite !rfind_app. cbn [append Str.rfind]. rewrite He, Hd, Hs.
  cbn [Ascii.eqb Bool.eqb]. cbv iota.
  rewrite Nat.add_0_r, Nat.sub_0_r.
  change (substring 0 (String.length stem) (stem ++ String "." e))
    with (Str.take (String.length stem) (stem ++ String "." e)).
  rewrite take_app, drop_app. cbn [Nat.leb andb]. reflexivity.
Qed.

(** X11.  After a successful traversal the [relativePath] of every song is
    its own artist, album and title fields joined with slashes, followed
    by what [splitext] took off the file name: nothing, or an extension
    that starts with a dot. *)
Theorem title_and_extension (root : string) (w : World) :
  traversal_ok root = true ->
  exists idx w',
    build_index root w = (Ok idx, w') /\
    forall s,
      In s (all_songs idx) ->
      exists ext,
        relativePath s
        = slash_joined (song_artist s) (song_album s) (title s ++ ext) /\
        (ext = "" \/ Str.startswith ext "." = true).
Proof.
  intros Hok.
  destruct (build_index_songs root w Hok) as (idx & w' & Hrun & Hperm).
  exists idx, w'. split; [exact Hrun|].
  intros s Hs. apply (Permutation_in _ Hperm) in Hs.
  apply planned_songs_origin in Hs.
  destruct Hs as ([a b] & i & f & _ & _ & ->).
  destruct (splitext_parts (nfc f)) as [Hjoin Hext].
  exists (snd (OsPath.splitext (nfc f))). split; [|exact Hext].
  unfold new_song. cbn [relativePath song_artist song_album title fst snd].
  rewrite Hjoin. reflexivity.
Qed.

(** X12.  After a successful traversal, an accepted entry of a visited
    album directory whose normalized name has no slash and reads
    [stem.e], with no dot in [e] and a character other than a dot in
    [stem], has a song titled [stem]. *)
Theorem title_drops_extension (root : string) (w : World)
    (a b f stem e : string) :
  traversal_ok root = true ->
  In (a, b) (album_dirs root) ->
  In f (listing (album_path root (a, b))) ->
  is_audio f = true ->
  nfc f = stem ++ "." ++ e ->
  lacks "/" stem -> lacks "/" e -> lacks "." e ->
  OsPath.some_char_differs "." stem = true ->
  exists idx w' s,
    build_index root w = (Ok idx, w') /\
    In s (all_songs idx) /\
    relativePath s = slash_joined (nfc a) (nfc b) (nfc f) /\
    title s = stem.
Proof.
  intros Hok Hab Hf Ha Hname Hs He Hd Hstem.
  destruct (build_index_songs root w Hok) as (idx & w' & Hrun & Hperm).
  destruct (accepted_entry_has_song root idx (drawn w) a b f Hperm Hab Hf Ha)
    as (s & Hin & Hpath & Htitle & _).
  exists idx, w', s. repeat split; try assumption.
  rewrite Htitle, Hname, splitext_stem by assumption.
  now rewrite Hstem.
Qed.

(** X13.  After a successful traversal, an accepted entry of a visited
    album directory whose normalized name has no slash and is made of
    dots up to its last dot (such as [.mp3]) has a song whose title is the
    whole name: no extension is taken off. *)
Theorem dot_only_name_is_its_title (root : string) (w : World)
    (a b f dots e : string) :
  traversal_ok root = true ->
  In (a, b) (album_dirs root) ->
  In f (listing (album_path root (a, b))) ->
  is_audio f = true ->
  nfc f = dots ++ "." ++ e ->
  lacks "/" dots -> lacks "/" e -> lacks "." e ->
  OsPath.some_char_differs "." dots = false ->
  exists idx w' s,
    build_index root w = (Ok idx, w') /\
    In s (all_songs idx) /\
    relativePath s = slash_joined (nfc a) (nfc b) (nfc f) /\
    title s = nfc f.
Proof.
  intros Hok Hab Hf Ha Hname Hs He Hd Hdots.
  destruct (build_index_songs root w Hok) as (idx & w' & Hrun & Hperm).
  destruct (accepted_entry_has_song root idx (drawn w) a b f Hperm Hab Hf Ha)
    as (s & Hin & Hpath & Htitle & _).
  exists idx, w', s. repeat split; try assumption.
  rewrite Htitle, Hname, splitext_stem by assumption.
  now rewrite Hdots.
Qed.

End Indexer.

(* ===================================================================== *)
(** ** Hidden directories *)
(* ===================================================================== *)

Lemma startswith_dot s : Str.startswith s "." = dot_name s.
Proof.
  destruct s as [|c s]; [reflexivity|]. simpl.
  now rewrite andb_true_r.
Qed.

Lemma is_visible_dir_shown os parent entry :
  is_visible_dir os parent entry = shown_dir os parent entry.
Proof.
  unfold is_visible_dir, shown_dir. rewrite startswith_dot. apply andb_comm.
Qed.

Lemma for_in_filter {A S} (p : A -> bool) (body : A -> S -> M S) xs s w :
  (forall x s w, p x = false -> body x s w = (Ok s, w)) ->
  for_in xs body s w = for_in (filter p xs) body s w.
Proof.
  intros Hskip. revert s w. induction xs as [|x xs IH]; intros s w; simpl.
  - reflexivity.
  - destruct (p x) eqn:Hp; simpl; unfold bind.
    + destruct (body x s w) as [[s'|e] w']; [apply IH | reflexivity].
    + rewrite Hskip by exact Hp. apply IH.
Qed.

Lemma for_in_ext {A S} (body1 body2 : A -> S -> M S) xs s w :
  (forall x, In x xs -> forall s w, body1 x s w = body2 x s w) ->
  for_in xs body1 s w = for_in xs body2 s w.
Proof.
  revert s w. induction xs as [|x xs IH]; intros s w Hext; simpl.
  - reflexivity.
  - unfold bind. rewrite Hext by now left.
    destruct (body2 x s w) as [[s'|e] w']; [|reflexivity].
    apply IH. intros y Hy. apply Hext. now right.
Qed.

Lemma tagged_map_eq {A B} (g1 g2 : A -> B) l1 l2 :
  map (fun x => (x, g1 x)) l1 = map (fun x => (x, g2 x)) l2 ->
  l1 = l2 /\ forall x, In x l1 -> g1 x = g2 x.
Proof.
  revert l2. induction l1 as [|x l1 IH]; intros [|y l2] H; simpl in H;
    try discriminate.
  - split; [reflexivity | intros x []].
  - injection H as -> Hg Hrest. destruct (IH _ Hrest) as [-> Hall].
    split; [reflexivity|]. intros x [<- | Hin]; auto.
Qed.

Lemma scan_song_entropy nfc lower os1 os2 a b k f d w :
  urandom16 os1 = urandom16 os2 ->
  scan_song nfc lower os1 a b k f d w = scan_song nfc lower os2 a b k f d w.
Proof.
  intros Hr. unfold scan_song, uuid4, bind. now rewrite Hr.
Qed.

(** An iteration of the album loop depends on the file system only through
    the test of line 26 and the listing of the album directory. *)
Lemma scan_album_agree nfc lower os1 os2 ap a b d w :
  urandom16 os1 = urandom16 os2 ->
  is_visible_dir os1 ap b = is_visible_dir os2 ap b ->
  listdir os1 (OsPath.join ap b) = listdir os2 (OsPath.join ap b) ->
  scan_album nfc lower os1 ap a b d w = scan_album nfc lower os2 ap a b d w.
Proof.
  intros Hr Hv Hl. unfold scan_album. rewrite Hv, Hl.
  destruct (is_visible_dir os2 ap b); [|reflexivity].
  unfold bind, lift.
  destruct (listdir os2 (OsPath.join ap b)) as [fs|e]; [|reflexivity].
  apply for_in_ext. intros f _ d' w'. now apply scan_song_entropy.
Qed.

Lemma scan_albums_agree nfc lower os1 os2 ap a bs1 bs2 d w :
  urandom16 os1 = urandom16 os2 ->
  map (album_view os1 ap) (filter (shown_dir os1 ap) bs1)
  = map (album_view os2 ap) (filter (shown_dir os2 ap) bs2) ->
  for_in bs1 (scan_album nfc lower os1 ap a) d w
  = for_in bs2 (scan_album nfc lower os2 ap a) d w.
Proof.
  intros Hr Hview.
  rewrite (for_in_filter (shown_dir os1 ap) (scan_album nfc lower os1 ap a)).
  2:{ intros b d' w' Hb. apply scan_album_hidden.
      now rewrite is_visible_dir_shown. }
  rewrite (for_in_filter (shown_dir os2 ap) (scan_album nfc lower os2 ap a) bs2).
  2:{ intros b d' w' Hb. apply scan_album_hidden.
      now rewrite is_visible_dir_shown. }
  unfold album_view in Hview.
  apply tagged_map_eq in Hview. destruct Hview as [Heq Hall].
  rewrite <- Heq. apply for_in_ext. intros b Hb d' w'.
  apply scan_album_agree; [exact Hr | | now apply Hall].
  rewrite !is_visible_dir_shown.
  assert (H2 : In b (filter (shown_dir os2 ap) bs2)) by now rewrite <- Heq.
  apply filter_In in Hb. apply filter_In in H2.
  destruct Hb as [_ ->]. now destruct H2 as [_ ->].
Qed.

Lemma scan_artist_hidden nfc lower os root a d w :
  is_visible_dir os root a = false ->
  scan_artist nfc lower os root a d w = (Ok d, w).
Proof. intros H. unfold scan_artist. now rewrite H. Qed.

Lemma scan_artists_agree nfc lower os1 os2 root as1 as2 d w :
  urandom16 os1 = urandom16 os2 ->
  map (artist_view os1 root) (filter (shown_dir os1 root) as1)
  = map (artist_view os2 root) (filter (shown_dir os2 root) as2) ->
  for_in as1 (scan_artist nfc lower os1 root) d w
  = for_in as2 (scan_artist nfc lower os2 root) d w.
Proof.
  intros Hr Hview.
  rewrite (for_in_filter (shown_dir os1 root) (scan_artist nfc lower os1 root)).
  2:{ intros a d' w' Ha. apply scan_artist_hidden.
      now rewrite is_visible_dir_shown. }
  rewrite (for_in_filter (shown_dir os2 root) (scan_artist nfc lower os2 root) as2).
  2:{ intros a d' w' Ha. apply scan_artist_hidden.
      now rewrite is_visible_dir_shown. }
  unfold artist_view in Hview.
  apply tagged_map_eq in Hview. destruct Hview as [Heq Hall].
  rewrite <- Heq. apply for_in_ext. intros a Ha d' w'.
  specialize (Hall a Ha).
  assert (H2 : In a (filter (shown_dir os2 root) as2)) by now rewrite <- Heq.
  apply filter_In in Ha. apply filter_In in H2.
  destruct Ha as [_ Ha]. destruct H2 as [_ H2].
  unfold scan_artist. rewrite !is_visible_dir_shown, Ha, H2.
  unfold bind, lift.
  destruct (listdir os1 (OsPath.join root a)) as [bs1|e1];
    destruct (listdir os2 (OsPath.join root a)) as [bs2|e2];
    try discriminate.
  - injection Hall as Hall. now apply scan_albums_agree.
  - now injection Hall as ->.
Qed.

(** C4.  The traversal depends on the file system only through the
    directories whose names do not start with a dot: two file systems with
    the same visible tree under the root (they may differ in which
    dot-named directories exist at the artist or album level, in what
    those contain and in whether they can be listed) give the same result
    and the same effects, and no directory pair that feeds the index has a
    dot-named artist or album directory. *)
Theorem hidden_directories_skipped
    (nfc lower : string -> string) (os1 os2 : OS) (root : string) (w : World) :
  urandom16 os1 = urandom16 os2 ->
  visible_tree os1 root = visible_tree os2 root ->
  build_index nfc lower os1 root w = build_index nfc lower os2 root w
  /\ (forall a b, In (a, b) (album_dirs os1 root) ->
                  dot_name a = false /\ dot_name b = false).
Proof.
  intros Hr Hview. split.
  - unfold build_index, bind, print, lift. unfold visible_tree in Hview.
    destruct (listdir os1 root) as [as1|e1];
      destruct (listdir os2 root) as [as2|e2]; try discriminate.
    + injection Hview as Hview.
      rewrite (scan_artists_agree nfc lower os1 os2 root as1 as2 [] _ Hr Hview).
      reflexivity.
    + now injection Hview as ->.
  - intros a b Hab. unfold album_dirs in Hab.
    apply in_flat_map in Hab. destruct Hab as (a' & Ha' & Hb).
    apply in_map_iff in Hb. destruct Hb as (b' & [= <- <-] & Hb').
    unfold artist_dirs in Ha'. unfold album_dirs_of in Hb'.
    apply filter_In in Ha'. apply filter_In in Hb'.
    destruct Ha' as [_ Ha']. destruct Hb' as [_ Hb'].
    rewrite is_visible_dir_shown in Ha', Hb'. unfold shown_dir in Ha', Hb'.
    apply andb_true_iff in Ha', Hb'.
    destruct Ha' as [Ha' _]. destruct Hb' as [Hb' _].
    split; now apply negb_true_iff.
Qed.

(** C6, as stated, fails: when the two draws of a run differ only in a
    bit that [uuid4] overwrites, the two songs of the album get the same
    identifier. *)
Lemma ids_collide_on_weak_entropy :
  urandom16 Fixtures.os_weak_entropy 0 <> urandom16 Fixtures.os_weak_entropy 1 /\
  exists idx w',
    build_index Fixtures.nfc_acute Str.ascii_lower Fixtures.os_weak_entropy
      "./Music" initial_world = (Ok idx, w') /\
    map id (all_songs idx)
    = [ "00000000-0000-4000-8000-000000000000";
        "00000000-0000-4000-8000-000000000000" ] /\
    ~ NoDup (map id (all_songs idx)).
Proof.
  split; [discriminate|].
  eexists _, _. split; [vm_compute; reflexivity|]. split; [reflexivity|].
  intros H. inversion H as [|x l Hnotin _]; subst.
  apply Hnotin. now left.
Qed.

(* ===================================================================== *)
(** ** The theorems at work on concrete libraries *)
(* ===================================================================== *)

Module Runs.
Import Fixtures.

Lemma ascii_lower_agrees :
  lower_agrees_on_extensions Str.ascii_lower.
Proof. intros s e _. reflexivity. Defined.

(** Without a [./Music] directory the script only prints. *)
Lemma invalid_root_reported_witness :
  main nfc_acute Str.ascii_lower os_empty "./Music" initial_world
  = (Ok tt,
     mkWorld
       [ "Error: The specified directory does not exist: './Music'";
         "Please create it and place your music inside, or change the 'music_directory' variable." ]
       [] 0).
Proof.
  exact (proj1 (invalid_root_reported nfc_acute Str.ascii_lower
                  os_empty "./Music" initial_world eq_refl)).
Defined.

(** An unreadable artist directory aborts the run after one song was
    scanned, and nothing is written. *)
Lemma listing_failure_aborts_witness :
  exists q e w',
    In q (listed_dirs os_unreadable "./Music") /\
    listdir os_unreadable q = Raise e /\
    create_music_index nfc_acute Str.ascii_lower os_unreadable
      "./Music" "./Music/index.json" initial_world = (Raise e, w') /\
    files w' = [] /\
    (isdir os_unreadable "./Music" = true ->
     main nfc_acute Str.ascii_lower os_unreadable
       "./Music" initial_world = (Raise e, w')).
Proof.
  apply (listing_failure_aborts nfc_acute Str.ascii_lower
           os_unreadable "./Music" "./Music/index.json"
           "./Music/Locked" initial_world).
  - vm_compute. tauto.
  - reflexivity.
Defined.

(** [a-b]/[c] and [a]/[b-c] end up in one record. *)
Lemma same_key_shares_record_witness :
  exists idx w' r s1 s2,
    build_index nfc_acute Str.ascii_lower os_collision "./Music" initial_world
    = (Ok idx, w') /\
    In r idx /\ In s1 (songs r) /\ In s2 (songs r) /\
    (song_artist s1, song_album s1) = ("a-b", "c") /\
    (song_artist s2, song_album s2) = ("a", "b-c") /\
    relativePath s1 = "a-b/c/x.mp3" /\
    relativePath s2 = "a/b-c/y.mp3".
Proof.
  apply (same_key_shares_record nfc_acute Str.ascii_lower os_collision
           "./Music" initial_world "a-b" "c" "x.mp3" "a" "b-c" "y.mp3").
  - reflexivity.
  - vm_compute. auto.
  - vm_compute. auto.
  - reflexivity.
  - vm_compute. auto.
  - vm_compute. auto.
Defined.

(** The two spellings of the artist give one album with the songs of
    both directories. *)
Lemma album_merge_witness :
  exists idx w' before r after,
    build_index nfc_acute Str.ascii_lower os_cafe "./Music" initial_world
    = (Ok idx, w') /\
    idx = (before ++ r :: after)%list /\
    make_album_key (artist r) (name r) = "Café Tacvba-Re" /\
    (forall r', In r' (before ++ after)%list ->
       make_album_key (artist r') (name r') <> "Café Tacvba-Re") /\
    (forall f,
       In f ["01 - El Borrego.mp3"; "02 - El Fin.mp3"; "track.MP3"] ->
       exists s, In s (songs r) /\
                 relativePath s = slash_joined "Café Tacvba" "Re" (nfc_acute f)) /\
    ((forall ab, In ab [] ->
        key_of_dir nfc_acute ab <> "Café Tacvba-Re") ->
     artist r = "Café Tacvba" /\ name r = "Re" /\
     map relativePath (songs r)
     = [ "Café Tacvba/Re/01 - El Borrego.mp3";
         "Café Tacvba/Re/02 - El Fin.mp3";
         "Café Tacvba/Re/track.MP3" ]).
Proof.
  apply (album_merge nfc_acute Str.ascii_lower os_cafe "./Music" initial_world
           [] [] [] cafe_decomposed "Re" cafe_composed "Re");
    reflexivity.
Defined.

(** [track.MP3] is indexed and [cover.jpg] is not. *)
Lemma extension_filter_witness :
  (exists idx w',
     build_index nfc_acute Str.ascii_lower os_cafe "./Music" initial_world
     = (Ok idx, w') /\
     Permutation
       (map relativePath (all_songs idx))
       [ "Café Tacvba/Re/01 - El Borrego.mp3";
         "Café Tacvba/Re/02 - El Fin.mp3";
         "Café Tacvba/Re/track.MP3" ])
  /\ is_audio Str.ascii_lower "track.MP3" = true
  /\ is_audio Str.ascii_lower "cover.jpg" = false.
Proof.
  destruct (extension_filter nfc_acute Str.ascii_lower os_cafe "./Music"
              initial_world ascii_lower_agrees) as (_ & Hrun & Hmp3 & Hjpg).
  split; [|split; [exact Hmp3 | exact Hjpg]].
  exact (Hrun eq_refl).
Defined.

(** A library that differs from another one only by dot-named directories
    gives the same index. *)
Lemma hidden_directories_skipped_witness :
  build_index nfc_acute Str.ascii_lower os_with_hidden "./Music" initial_world
  = build_index nfc_acute Str.ascii_lower os_plain "./Music" initial_world
  /\ (forall a b, In (a, b) (album_dirs os_with_hidden "./Music") ->
                  dot_name a = false /\ dot_name b = false).
Proof.
  apply (hidden_directories_skipped nfc_acute Str.ascii_lower
           os_with_hidden os_plain "./Music" initial_world);
    reflexivity.
Defined.

(** The decomposed spelling of the artist directory gives the composed
    path. *)
Lemma relative_path_construction_witness :
  exists s,
    (exists idx w',
       build_index nfc_acute Str.ascii_lower os_sigur "./Music" initial_world
       = (Ok idx, w') /\ In s (all_songs idx)) /\
    relativePath s = "Sigur Rós/( )/08.flac".
Proof.
  destruct (relative_path_construction nfc_acute Str.ascii_lower os_sigur
              "./Music" initial_world eq_refl)
    as (idx & w' & Hrun & _ & Hsigur).
  destruct (Hsigur sigur_decomposed "( )" "08.flac") as (s & Hs & Hpath).
  - vm_compute. auto.
  - vm_compute. auto.
  - reflexivity.
  - reflexivity.
  - reflexivity.
  - reflexivity.
  - exists s. split; [exists idx, w'; split; assumption | exact Hpath].
Defined.

(** The directory [demo.mp3] is indexed as a song. *)
Lemma directory_entries_become_songs_witness :
  isdir os_sigur (OsPath.join (album_path "./Music" (sigur_decomposed, "( )"))
                    "demo.mp3") = true /\
  exists s,
    (exists idx w',
       build_index nfc_acute Str.ascii_lower os_sigur "./Music" initial_world
       = (Ok idx, w') /\ In s (all_songs idx)) /\
    relativePath s = "Sigur Rós/( )/demo.mp3" /\ title s = "demo".
Proof.
  split; [reflexivity|].
  destruct (directory_entries_become_songs nfc_acute Str.ascii_lower os_sigur
              "./Music" initial_world ascii_lower_agrees eq_refl)
    as (idx & w' & Hrun & _ & Hdemo).
  destruct (Hdemo sigur_decomposed "( )") as (s & Hs & Hpath & Htitle).
  - vm_compute. auto.
  - vm_compute. auto.
  - reflexivity.
  - exists s. split; [exists idx, w'; split; assumption|].
    split; [exact Hpath | exact Htitle].
Defined.

(** The dot-named entry [._track.mp3] is indexed as a song. *)
Lemma dot_entries_become_songs_witness :
  exists s,
    (exists idx w',
       build_index nfc_acute Str.ascii_lower os_sigur "./Music" initial_world
       = (Ok idx, w') /\ In s (all_songs idx)) /\
    relativePath s = "Sigur Rós/( )/._track.mp3".
Proof.
  destruct (dot_entries_become_songs nfc_acute Str.ascii_lower os_sigur
              "./Music" initial_world ascii_lower_agrees eq_refl)
    as (idx & w' & Hrun & _ & Hdot).
  destruct (Hdot sigur_decomposed "( )") as (s & Hs & Hpath).
  - vm_compute. auto.
  - vm_compute. auto.
  - exists s. split; [exists idx, w'; split; assumption | exact Hpath].
Defined.

(** With the counting entropy source the three identifiers differ. *)
Lemma ids_distinct_iff_draws_distinct_witness :
  exists idx w',
    build_index nfc_acute Str.ascii_lower os_cafe "./Music" initial_world
    = (Ok idx, w') /\
    drawn w' = 0 + length (all_songs idx) /\
    (NoDup (map id (all_songs idx)) <->
     NoDup (map (draw_uuid os_cafe) (seq 0 (length (all_songs idx))))).
Proof.
  apply (ids_distinct_iff_draws_distinct nfc_acute Str.ascii_lower os_cafe
           "./Music" initial_world).
  reflexivity.
Defined.

End Runs.

Module MoreRuns.
Import Fixtures.

(** The two spellings of Café Tacvba give one key, met first at the first
    directory. *)
Lemma albums_in_first_discovery_order_witness :
  exists idx w',
    build_index nfc_acute Str.ascii_lower os_cafe "./Music" initial_world
    = (Ok idx, w') /\
    map record_key idx = ["Café Tacvba-Re"].
Proof.
  apply (albums_in_first_discovery_order nfc_acute Str.ascii_lower os_cafe
           "./Music" initial_world).
  reflexivity.
Defined.

Lemma album_records_unique_witness :
  exists idx w',
    build_index nfc_acute Str.ascii_lower os_cafe "./Music" initial_world
    = (Ok idx, w') /\
    NoDup (map record_key idx) /\
    NoDup (map (fun r => (artist r, name r)) idx).
Proof.
  apply (album_records_unique nfc_acute Str.ascii_lower os_cafe
           "./Music" initial_world).
  reflexivity.
Defined.

(** The album that only holds a cover image is listed, without songs. *)
Lemma every_album_directory_has_record_witness :
  exists r,
    (exists idx w',
       build_index nfc_acute Str.ascii_lower os_empty_album "./Music"
         initial_world = (Ok idx, w') /\ In r idx) /\
    record_key r = "Bjork-Post" /\ songs r = [].
Proof.
  destruct (every_album_directory_has_record nfc_acute Str.ascii_lower
              os_empty_album "./Music" initial_world eq_refl)
    as (idx & w' & Hrun & Hall).
  destruct (Hall "Bjork" "Post") as (r & Hr & Hkey & Hempty).
  - vm_compute. auto.
  - exists r. split; [exists idx, w'; split; assumption|].
    split; [exact Hkey|]. apply Hempty.
    intros ab Hab _. vm_compute in Hab. destruct Hab as [<- | []].
    reflexivity.
Defined.

Lemma album_songs_in_listing_order_witness :
  exists idx w',
    build_index nfc_acute Str.ascii_lower os_collision "./Music" initial_world
    = (Ok idx, w') /\
    forall r,
      In r idx ->
      map relativePath (songs r)
      = flat_map (paths_of_dir nfc_acute Str.ascii_lower os_collision "./Music")
          (filter (has_key nfc_acute (record_key r))
                  [("a-b", "c"); ("a", "b-c")]).
Proof.
  apply (album_songs_in_listing_order nfc_acute Str.ascii_lower os_collision
           "./Music" initial_world).
  reflexivity.
Defined.

Lemma album_named_by_first_directory_witness :
  exists idx w',
    build_index nfc_acute Str.ascii_lower os_collision "./Music" initial_world
    = (Ok idx, w') /\
    forall r,
      In r idx ->
      exists l1 a b l2,
        [("a-b", "c"); ("a", "b-c")] = (l1 ++ (a, b) :: l2)%list /\
        (forall ab, In ab l1 ->
           key_of_dir nfc_acute ab <> key_of_dir nfc_acute (a, b)) /\
        artist r = nfc_acute a /\ name r = nfc_acute b.
Proof.
  apply (album_named_by_first_directory nfc_acute Str.ascii_lower os_collision
           "./Music" initial_world).
  reflexivity.
Defined.

Lemma song_key_is_record_key_witness :
  exists idx w',
    build_index nfc_acute Str.ascii_lower os_collision "./Music" initial_world
    = (Ok idx, w') /\
    forall r s,
      In r idx -> In s (songs r) ->
      make_album_key (song_artist s) (song_album s) = record_key r.
Proof.
  apply (song_key_is_record_key nfc_acute Str.ascii_lower os_collision
           "./Music" initial_world).
  reflexivity.
Defined.

Lemma cafe_has_no_key_collision :
  no_key_collision nfc_acute os_cafe "./Music".
Proof.
  intros ab1 ab2 H1 H2 _. vm_compute in H1, H2.
  destruct H1 as [<- | [<- | []]]; destruct H2 as [<- | [<- | []]];
    split; reflexivity.
Defined.

Lemma songs_match_album_without_collision_witness :
  exists idx w',
    build_index nfc_acute Str.ascii_lower os_cafe "./Music" initial_world
    = (Ok idx, w') /\
    forall r s,
      In r idx -> In s (songs r) ->
      song_artist s = artist r /\ song_album s = name r.
Proof.
  apply (songs_match_album_without_collision nfc_acute Str.ascii_lower os_cafe
           "./Music" initial_world).
  - reflexivity.
  - exact cafe_has_no_key_collision.
Defined.

Lemma successful_run_writes_index_witness :
  exists idx w1,
    build_index nfc_acute Str.ascii_lower os_plain "./Music" initial_world
    = (Ok idx, w1) /\
    script nfc_acute Str.ascii_lower os_plain initial_world =
      (Ok tt,
       mkWorld
         [ "Starting scan in: ./Music";
           success_line "./Music/index.json" idx ]
         [ ("./Music/index.json", Json idx) ]
         (drawn w1)).
Proof.
  apply (successful_run_writes_index nfc_acute Str.ascii_lower os_plain
           "./Music" initial_world); reflexivity.
Defined.

Lemma write_failure_is_reported_witness :
  exists w' written,
    create_music_index nfc_acute Str.ascii_lower os_read_only
      "./Music" "./Music/index.json" initial_world = (Ok tt, w') /\
    stdout w'
    = [ "Starting scan in: ./Music";
        "Error writing to file: [Errno 13] Permission denied: './Music/index.json'" ] /\
    files w' = ([] ++ written)%list /\
    (forall p c, In (p, c) written -> c = Truncated) /\
    (open_write os_read_only "./Music/index.json"
     = OpenFails "[Errno 13] Permission denied: './Music/index.json'" ->
     written = []).
Proof.
  apply (write_failure_is_reported nfc_acute Str.ascii_lower os_read_only
           "./Music" "./Music/index.json"
           "[Errno 13] Permission denied: './Music/index.json'" initial_world).
  - reflexivity.
  - left. reflexivity.
Defined.

Lemma title_and_extension_witness :
  exists idx w',
    build_index nfc_acute Str.ascii_lower os_cafe "./Music" initial_world
    = (Ok idx, w') /\
    forall s,
      In s (all_songs idx) ->
      exists ext,
        relativePath s
        = slash_joined (song_artist s) (song_album s) (title s ++ ext) /\
        (ext = "" \/ Str.startswith ext "." = true).
Proof.
  apply (title_and_extension nfc_acute Str.ascii_lower os_cafe
           "./Music" initial_world).
  reflexivity.
Defined.

Lemma title_drops_extension_witness :
  exists idx w' s,
    build_index nfc_acute Str.ascii_lower os_cafe "./Music" initial_world
    = (Ok idx, w') /\
    In s (all_songs idx) /\
    relativePath s = "Café Tacvba/Re/01 - El Borrego.mp3" /\
    title s = "01 - El Borrego".
Proof.
  apply (title_drops_extension nfc_acute Str.ascii_lower os_cafe
           "./Music" initial_world cafe_decomposed "Re"
           "01 - El Borrego.mp3" "01 - El Borrego" "mp3").
  - reflexivity.
  - vm_compute. auto.
  - vm_compute. auto.
  - reflexivity.
  - reflexivity.
  - reflexivity.
  - reflexivity.
  - reflexivity.
  - reflexivity.
Defined.

Lemma dot_only_name_is_its_title_witness :
  exists idx w' s,
    build_index nfc_acute Str.ascii_lower os_dotfile "./Music" initial_world
    = (Ok idx, w') /\
    In s (all_songs idx) /\
    relativePath s = "Bjork/Post/.mp3" /\
    title s = ".mp3".
Proof.
  apply (dot_only_name_is_its_title nfc_acute Str.ascii_lower os_dotfile
           "./Music" initial_world "Bjork" "Post" ".mp3" "" "mp3").
  - reflexivity.
  - vm_compute. auto.
  - vm_compute. auto.
  - reflexivity.
  - reflexivity.
  - reflexivity.
  - reflexivity.
  - reflexivity.
  - reflexivity.
Defined.

End MoreRuns.
